(** * mpool: a first-fit pool allocator over a caller-supplied arena

    Shallow embedding of [src/mpool.c].  The C code keeps its free list inside
    the arena itself, so the model is a flat byte-addressed memory together
    with the two static counters; every field access of the C code is a
    little-endian load or store at the address the C expression denotes.

    Data layout (LP64, the target [src/main.c] is built for):
    - [int] is 4 bytes, a data pointer is 8 bytes;
    - [block_t] is [{ int size; union { char *payload; struct list_head list; } }]:
      [size] at offset 0, the union at offset 8, [sizeof(block_t) = 24];
    - [word_size = sizeof(int) = 4], [log2_word_size = 2], [header_size = 24].

    [int] arithmetic is written with its two's complement wrap-around
    ([int_wrap]); addresses are unbounded integers stored in 8 bytes, and
    the order test of [get_loc_to_free], which the code makes on
    [uintptr_t] values, is made modulo [2 ^ 64] ([uintptr]). *)

From Stdlib Require Import ZArith List Lia Bool.
Import ListNotations.
Open Scope Z_scope.

(** ** Machine integers and memory *)

Definition INT_MAX : Z := 2147483647.

Definition int_wrap (x : Z) : Z := (x + 2147483648) mod 4294967296 - 2147483648.

(** The value of a pointer converted to [uintptr_t]. *)
Definition uintptr (x : Z) : Z := x mod 18446744073709551616.

Definition mem : Type := Z -> Z.

Definition load_byte (m : mem) (a : Z) : Z := m a mod 256.

Definition store_byte (m : mem) (a v : Z) : mem :=
  fun x => if x =? a then v mod 256 else m x.

Fixpoint load_le (n : nat) (m : mem) (a : Z) : Z :=
  match n with
  | O => 0
  | S k => load_byte m a + 256 * load_le k m (a + 1)
  end.

Fixpoint store_le (n : nat) (m : mem) (a v : Z) : mem :=
  match n with
  | O => m
  | S k => store_le k (store_byte m a v) (a + 1) (v / 256)
  end.

Definition load_int (m : mem) (a : Z) : Z := int_wrap (load_le 4 m a).
Definition store_int (m : mem) (a v : Z) : mem := store_le 4 m a v.
Definition load_ptr (m : mem) (a : Z) : Z := load_le 8 m a.
Definition store_ptr (m : mem) (a v : Z) : mem := store_le 8 m a v.

(** [memset(p, c, n)] and [memcpy(dst, src, n)], byte by byte from the low
    address; [n] is the C argument converted to a count. *)
Fixpoint memset (m : mem) (p c : Z) (n : nat) : mem :=
  match n with
  | O => m
  | S k => memset (store_byte m p c) (p + 1) c k
  end.

Fixpoint memcpy (m : mem) (dst src : Z) (n : nat) : mem :=
  match n with
  | O => m
  | S k => memcpy (store_byte m dst (load_byte m src)) (dst + 1) (src + 1) k
  end.

(** ** Layout constants of [mpool.c] *)

Definition NULL : Z := 0.
Definition word_size : Z := 4.
Definition log2_word_size : Z := 2.
Definition ptr_size : Z := 8.
Definition header_size : Z := 24.
(** [offsetof(block_t, payload) = offsetof(block_t, list)] *)
Definition payload_off : Z := 8.

(** Modelled from the spec: [list.h] is not among the sources; the free list
    is the "doubly linked list ... terminated by a sentinel" of the data
    model, with the usual two-pointer node [struct list_head { prev; next }]. *)
Definition prev_off : Z := 0.
Definition next_off : Z := 8.

Definition get_prev (m : mem) (node : Z) : Z := load_ptr m (node + prev_off).
Definition get_next (m : mem) (node : Z) : Z := load_ptr m (node + next_off).
Definition set_prev (m : mem) (node v : Z) : mem := store_ptr m (node + prev_off) v.
Definition set_next (m : mem) (node v : Z) : mem := store_ptr m (node + next_off) v.

(** Modelled from the spec: [list_add(node, head)] of the missing [list.h]
    links [node] right after the sentinel. *)
Definition list_add (m : mem) (node head : Z) : mem :=
  let next := get_next m head in
  let m := set_prev m next node in
  let m := set_next m node next in
  let m := set_prev m node head in
  set_next m head node.

(** Modelled from the spec: [list_del(node)] of the missing [list.h] unlinks
    [node] from its neighbours. *)
Definition list_del (m : mem) (node : Z) : mem :=
  let next := get_next m node in
  let prev := get_prev m node in
  let m := set_prev m next prev in
  set_next m prev next.

(** Modelled from the spec: [list_is_singular(head)] of the missing [list.h]:
    the list is not empty and its first node is its last. *)
Definition list_is_singular (m : mem) (head : Z) : bool :=
  negb (get_next m head =? head) && (get_prev m head =? get_next m head).

Record state : Type := mkState {
  st_mem : mem;
  pool_size : Z;
  pool_free_space : Z
}.

Section Pool.

(** Address of the static sentinel [block_head]. *)
Variable block_head : Z.

(** [static LIST_HEAD(block_head)]: the sentinel points to itself. *)
Definition init_state (m : mem) : state :=
  mkState (set_next (set_prev m block_head block_head) block_head block_head) 0 0.

Definition pool_init (st : state) (addr size : Z) : bool * state :=
  if addr =? NULL then (false, st)
  else if size <=? header_size then (false, st)
  else
    let fs := int_wrap (size - word_size) in
    let m := store_int (st_mem st) addr fs in
    let m := list_add m (addr + payload_off) block_head in
    (true, mkState m fs fs).

Definition round_up (x : Z) : Z :=
  let offset := int_wrap (Z.shiftl 1 log2_word_size - 1) in
  int_wrap (Z.shiftl (Z.shiftr (int_wrap (x + offset)) log2_word_size) log2_word_size).

Definition list_replace (m : mem) (from to : Z) : mem :=
  let m := set_next (set_prev m to (get_prev m from)) to (get_next m from) in
  let m := set_prev m (get_next m to) to in
  set_next m (get_prev m to) to.

(** The loop of [get_loc_to_place]: [node] is the list node under the cursor;
    [None] when the fuel runs out before the sentinel is reached. *)
Fixpoint place_loop (fuel : nat) (m : mem) (node size : Z) : option Z :=
  if node =? block_head then Some NULL
  else
    match fuel with
    | O => None
    | S k =>
        if load_int m (node - payload_off) >=? int_wrap (size + header_size)
        then Some (node - payload_off)
        else place_loop k m (get_next m node) size
    end.

Definition get_loc_to_place (fuel : nat) (m : mem) (size : Z) : option Z :=
  place_loop fuel m (get_next m block_head) size.

Definition pool_malloc (fuel : nat) (st : state) (size : Z) : option (Z * state) :=
  if size <=? 0 then Some (NULL, st)
  else
    let _size := round_up size in
    if pool_free_space st <=? int_wrap (_size + header_size) then Some (NULL, st)
    else
      match get_loc_to_place fuel (st_mem st) size with
      | None => None
      | Some ret =>
          if ret =? NULL then Some (NULL, st)
          else
            (* &ret->payload is a char **: the addition counts pointers *)
            let new_block := ret + payload_off + ptr_size * _size in
            let m := st_mem st in
            let m := store_int m new_block
                       (int_wrap (int_wrap (load_int m ret - word_size) - _size)) in
            let m := store_int m ret _size in
            let m := list_replace m (ret + payload_off) (new_block + payload_off) in
            let fs := int_wrap (pool_free_space st - _size) in
            let fs := int_wrap (fs - word_size) in
            Some (ret + payload_off, mkState m (pool_size st) fs)
      end.

Definition pool_calloc (fuel : nat) (st : state) (size : Z) : option (Z * state) :=
  match pool_malloc fuel st size with
  | None => None
  | Some (ptr, st1) =>
      if ptr =? NULL then Some (NULL, st1)
      else Some (ptr, mkState (memset (st_mem st1) ptr 0 (Z.to_nat size))
                              (pool_size st1) (pool_free_space st1))
  end.

(** The loop of [get_loc_to_free]; the result is the list node the loop
    stopped at, the sentinel when the loop ran to its end.  [target] and the
    block of [node] are compared as [uintptr_t]. *)
Fixpoint free_loop (fuel : nat) (m : mem) (node target : Z) : option Z :=
  if node =? block_head then Some block_head
  else
    match fuel with
    | O => None
    | S k =>
        if uintptr target <? uintptr (node - payload_off) then Some node
        else free_loop k m (get_next m node) target
    end.

Definition get_loc_to_free (fuel : nat) (m : mem) (addr : Z) : option Z :=
  if list_is_singular m block_head then Some (get_prev m block_head)
  else free_loop fuel m (get_next m block_head) (addr - payload_off).

Definition list_insert_before (m : mem) (node after : Z) : mem :=
  let prev := get_prev m after in
  let m := set_prev m node prev in
  let m := set_next m node after in
  let m := set_prev m after node in
  set_next m prev node.

Definition block_try_merge (st : state) (node1 node2 : Z) : state :=
  if (node1 =? block_head) || (node2 =? block_head) then st
  else
    let n1 := node1 - payload_off in
    let n2 := node2 - payload_off in
    let m := st_mem st in
    let loc := n1 + payload_off + ptr_size * load_int m n1 in
    if loc =? n2 then
      let m := list_del m node2 in
      let m := store_int m n1
                 (int_wrap (load_int m n1 + int_wrap (word_size + load_int m n2))) in
      mkState m (pool_size st) (int_wrap (pool_free_space st + word_size))
    else st.

Definition pool_free (fuel : nat) (st : state) (addr : Z) : option state :=
  let target := addr - payload_off in
  let fs := int_wrap (pool_free_space st + load_int (st_mem st) target) in
  match get_loc_to_free fuel (st_mem st) addr with
  | None => None
  | Some target_after =>
      let tl := target + payload_off in
      let m := list_insert_before (st_mem st) tl target_after in
      let st1 := mkState m (pool_size st) fs in
      let st2 := block_try_merge st1 tl (get_next (st_mem st1) tl) in
      Some (block_try_merge st2 (get_prev (st_mem st2) tl) tl)
  end.

Definition pool_realloc (fuel : nat) (st : state) (addr size : Z)
  : option (Z * state) :=
  match pool_malloc fuel st size with
  | None => None
  | Some (ptr, st1) =>
      if ptr =? NULL then Some (NULL, st1)
      else
        let m := memcpy (st_mem st1) ptr addr (Z.to_nat size) in
        match pool_free fuel (mkState m (pool_size st1) (pool_free_space st1)) addr with
        | None => None
        | Some st2 => Some (ptr, st2)
        end
  end.

End Pool.

(** ** Observations on a state *)

(** [list_nodes m hd node l]: following [next] from the list node [node]
    visits exactly the blocks [l] (base addresses) and then the sentinel. *)
Fixpoint list_nodes (m : mem) (hd node : Z) (l : list Z) : Prop :=
  match l with
  | [] => node = hd
  | b :: l' =>
      node = b + payload_off /\ node <> hd /\ list_nodes m hd (get_next m node) l'
  end.

Definition free_list_is (hd : Z) (st : state) (l : list Z) : Prop :=
  list_nodes (st_mem st) hd (get_next (st_mem st) hd) l.

(** The same walk as a program; [None] when [fuel] nodes did not reach the
    sentinel. *)
Fixpoint walk (fuel : nat) (m : mem) (hd node : Z) : option (list Z) :=
  if node =? hd then Some []
  else
    match fuel with
    | O => None
    | S k =>
        match walk k m hd (get_next m node) with
        | Some l => Some ((node - payload_off) :: l)
        | None => None
        end
    end.

Definition free_list (fuel : nat) (hd : Z) (st : state) : option (list Z) :=
  walk fuel (st_mem st) hd (get_next (st_mem st) hd).

Definition block_size (st : state) (b : Z) : Z := load_int (st_mem st) b.

Definition sum_sizes (st : state) (l : list Z) : Z :=
  fold_right (fun b acc => block_size st b + acc) 0 l.

Fixpoint increasing (l : list Z) : bool :=
  match l with
  | a :: ((b :: _) as l') => (a <? b) && increasing l'
  | _ => true
  end.

(** ** Bootstrap *)

Definition list_empty (hd : Z) (st : state) : Prop :=
  get_next (st_mem st) hd = hd /\ get_prev (st_mem st) hd = hd.

(** The block at [b] is the only node of the list, in both directions. *)
Definition sole_node (hd : Z) (st : state) (b : Z) : Prop :=
  free_list_is hd st [b] /\
  get_prev (st_mem st) hd = b + payload_off /\
  get_prev (st_mem st) (b + payload_off) = hd.


(** ** Callers

    A caller works through the five entry points and keeps the pointers it
    was given.  [step] refuses (with [None]) a release or a resize of a
    pointer the caller does not hold, so a run that goes through respects
    the caller contract; it is also [None] when a loop ran out of fuel. *)

Inductive op : Type :=
| Malloc (size : Z)
| Calloc (size : Z)
| Realloc (addr size : Z)
| Free (addr : Z).

Record client : Type := mkClient {
  cl_state : state;
  cl_live : list Z
}.

Definition holds (live : list Z) (p : Z) : bool := existsb (Z.eqb p) live.

Definition drop (live : list Z) (p : Z) : list Z :=
  filter (fun q => negb (q =? p)) live.

Definition keep (live : list Z) (p : Z) : list Z :=
  if p =? NULL then live else p :: live.

Definition step (hd : Z) (fuel : nat) (c : client) (o : op) : option client :=
  match o with
  | Malloc size =>
      match pool_malloc hd fuel (cl_state c) size with
      | Some (p, st) => Some (mkClient st (keep (cl_live c) p))
      | None => None
      end
  | Calloc size =>
      match pool_calloc hd fuel (cl_state c) size with
      | Some (p, st) => Some (mkClient st (keep (cl_live c) p))
      | None => None
      end
  | Realloc addr size =>
      if holds (cl_live c) addr then
        match pool_realloc hd fuel (cl_state c) addr size with
        | Some (p, st) =>
            Some (mkClient st
                    (if p =? NULL then cl_live c else p :: drop (cl_live c) addr))
        | None => None
        end
      else None
  | Free addr =>
      if holds (cl_live c) addr then
        match pool_free hd fuel (cl_state c) addr with
        | Some st => Some (mkClient st (drop (cl_live c) addr))
        | None => None
        end
      else None
  end.

Fixpoint run (hd : Z) (fuel : nat) (c : client) (ops : list op) : option client :=
  match ops with
  | [] => Some c
  | o :: ops' =>
      match step hd fuel c o with
      | Some c' => run hd fuel c' ops'
      | None => None
      end
  end.

(** A program start: the sentinel is initialised, the arena bytes are [m],
    then [pool_init(addr, size)] is called. *)
Definition boot (hd : Z) (m : mem) (addr size : Z) : bool * client :=
  let r := pool_init hd (init_state hd m) addr size in
  (fst r, mkClient (snd r) []).

(** ** Concrete placement used in the examples: the sentinel at [HD], an
    arena of zero bytes at [BUF]. *)
Definition HD : Z := 1048576.
Definition BUF : Z := 4096.
Definition zeros : mem := fun _ => 0.

Definition client_after (capacity : Z) (ops : list op) : option client :=
  run HD 64 (snd (boot HD zeros BUF capacity)) ops.

Definition state_after (capacity : Z) (ops : list op) : state :=
  match client_after capacity ops with
  | Some c => cl_state c
  | None => init_state HD zeros
  end.

(** The free blocks of a state, in list order, each with its size field. *)
Definition free_blocks (st : state) : option (list (Z * Z)) :=
  option_map (map (fun b => (b, block_size st b))) (free_list 64 HD st).

(** What a caller and an inspector see after a run: the pointers held, the
    free blocks and the counter. *)
Definition outcome (capacity : Z) (ops : list op)
  : option (list Z * option (list (Z * Z)) * Z) :=
  option_map
    (fun c => (cl_live c, free_blocks (cl_state c), pool_free_space (cl_state c)))
    (client_after capacity ops).

(** First block of [l] whose size is at least [need + header_size]. *)
Definition first_fit (need : Z) (l : list (Z * Z)) : option Z :=
  option_map fst (find (fun bs => need + header_size <=? snd bs) l).

(** An arena whose bytes are not all equal, to tell copied bytes apart. *)
Definition marks : mem := fun a => a mod 7 + 1.

Definition bytes_at (m : mem) (a : Z) (n : nat) : list Z :=
  map (fun i => load_byte m (a + Z.of_nat i)) (seq 0 n).

(** State after [pool_init(BUF, 256)] and [pool_malloc(8)] on the marked
    arena; the block at [BUF] is live with payload size 8. *)
Definition marked_live8 : state :=
  match run HD 8 (snd (boot HD marks BUF 256)) [Malloc 8] with
  | Some c => cl_state c
  | None => init_state HD marks
  end.

(** A state with two free blocks, [BUF] and [BUF + 120], and two live ones
    between them. *)
Definition two_free : state :=
  state_after 1024 [Malloc 4; Malloc 4; Malloc 4; Free (BUF + 8)].

(** The marked arena after [pool_init(BUF, 128)], and the state a
    [pool_calloc(16)] leaves there. *)
Definition marked_128 : state := snd (pool_init HD (init_state HD marks) BUF 128).

Definition marked_calloc16 : state :=
  match pool_calloc HD 4 marked_128 16 with
  | Some (_, st) => st
  | None => marked_128
  end.

(** Memory after [pool_init(BUF, 256)] on the zero arena: one free block. *)
Definition fresh_256 : mem := st_mem (state_after 256 []).

(** The state in the middle of a [pool_free]: after [pool_init(BUF, 256)] and
    [pool_malloc(8)], the block at [BUF] has been linked before the
    remainder at [BUF + 72] and the counter raised by its size. *)
Definition linked_before_merge : state :=
  let st := state_after 256 [Malloc 8] in
  mkState (list_insert_before (st_mem st) (BUF + 8) (BUF + 80))
    (pool_size st) (pool_free_space st + 8).

(** ** Well-linked lists

    [linked m hd prev node l]: walking from [node], whose predecessor is
    [prev], visits the blocks [l] and ends at the sentinel, every node
    pointing back to the one before it and the sentinel to the last. *)
Fixpoint linked (m : mem) (hd prev node : Z) (l : list Z) : Prop :=
  match l with
  | [] => node = hd /\ get_prev m hd = prev
  | b :: l' =>
      node = b + payload_off /\ node <> hd /\ get_prev m node = prev /\
      linked m hd node (get_next m node) l'
  end.

Definition well_linked (hd : Z) (m : mem) (l : list Z) : Prop :=
  linked m hd hd (get_next m hd) l.

(** Block headers (24 bytes each) that overlap neither each other nor the
    sentinel's two cells, and fit the address space. *)
Definition apart (b b' : Z) : Prop := b + header_size <= b' \/ b' + header_size <= b.

Definition off_sentinel (hd b : Z) : Prop :=
  0 <= b /\ b + header_size <= 2 ^ 64 /\ (b + header_size <= hd \/ hd + 16 <= b).

Fixpoint separated (l : list Z) : Prop :=
  match l with
  | [] => True
  | b :: l' => Forall (apart b) l' /\ separated l'
  end.

(** The node before, and the node after, a block that sits between [l1] and
    [l2] in a list whose walk started with predecessor [prev]. *)
Definition pred_node (prev : Z) (l1 : list Z) : Z :=
  fold_left (fun _ z => z + payload_off) l1 prev.

Definition succ_node (hd : Z) (l2 : list Z) : Z :=
  match l2 with
  | [] => hd
  | c :: _ => c + payload_off
  end.
(** ** Memory lemmas *)

Lemma store_le_out (n : nat) : forall m a v x,
  x < a \/ a + Z.of_nat n <= x -> store_le n m a v x = m x.
Proof.
  induction n as [|n IH]; intros m a v x H; simpl; [reflexivity|].
  rewrite IH by lia. unfold store_byte.
  destruct (x =? a) eqn:E; [apply Z.eqb_eq in E; lia | reflexivity].
Qed.

Lemma load_le_ext (n : nat) : forall m1 m2 a,
  (forall x, a <= x < a + Z.of_nat n -> m1 x = m2 x) ->
  load_le n m1 a = load_le n m2 a.
Proof.
  induction n as [|n IH]; intros m1 m2 a H; simpl; [reflexivity|].
  unfold load_byte. rewrite (H a) by lia.
  rewrite (IH m1 m2 (a + 1)); [reflexivity|]. intros x Hx. apply H. lia.
Qed.

Lemma load_store_other (n1 n2 : nat) m a1 a2 v :
  a1 + Z.of_nat n1 <= a2 \/ a2 + Z.of_nat n2 <= a1 ->
  load_le n1 (store_le n2 m a2 v) a1 = load_le n1 m a1.
Proof.
  intros H. apply load_le_ext. intros x Hx. apply store_le_out. lia.
Qed.

Lemma load_store_same (n : nat) : forall m a v,
  load_le n (store_le n m a v) a = v mod 256 ^ Z.of_nat n.
Proof.
  induction n as [|n IH]; intros m a v.
  - simpl. symmetry. apply Z.mod_1_r.
  - cbn [load_le store_le]. rewrite IH.
    unfold load_byte. rewrite store_le_out by lia.
    unfold store_byte. rewrite Z.eqb_refl.
    rewrite Nat2Z.inj_succ, Z.pow_succ_r by lia.
    rewrite Z.mod_mod by lia.
    assert (Hp : 0 < 256 ^ Z.of_nat n) by (apply Z.pow_pos_nonneg; lia).
    rewrite (Z.rem_mul_r v 256 (256 ^ Z.of_nat n)) by lia.
    reflexivity.
Qed.

Lemma int_wrap_small x : - INT_MAX - 1 <= x <= INT_MAX -> int_wrap x = x.
Proof.
  unfold int_wrap, INT_MAX. intros H. rewrite Z.mod_small by lia. lia.
Qed.

Lemma load_store_int m a v :
  - INT_MAX - 1 <= v <= INT_MAX -> load_int (store_int m a v) a = v.
Proof.
  intros H. unfold load_int, store_int. rewrite load_store_same.
  unfold int_wrap, INT_MAX in *. change (256 ^ Z.of_nat 4) with 4294967296.
  Z.div_mod_to_equations. lia.
Qed.

Lemma load_store_ptr m a v :
  0 <= v < 2 ^ 64 -> load_ptr (store_ptr m a v) a = v.
Proof.
  intros H. unfold load_ptr, store_ptr. rewrite load_store_same.
  change (256 ^ Z.of_nat 8) with (2 ^ 64). apply Z.mod_small. exact H.
Qed.

Ltac unfold_mem :=
  unfold get_next, get_prev, set_next, set_prev, load_ptr, store_ptr,
    next_off, prev_off, payload_off, header_size, word_size, NULL in *.

(** Skip the outermost store when it does not touch the loaded range. *)
Ltac skip_store := rewrite load_store_other by (simpl Z.of_nat; lia).

Lemma pool_init_mem hd st addr size :
  addr <> NULL -> header_size < size ->
  pool_init hd st addr size =
    (true,
     mkState (list_add (store_int (st_mem st) addr (int_wrap (size - word_size)))
                (addr + payload_off) hd)
       (int_wrap (size - word_size)) (int_wrap (size - word_size))).
Proof.
  intros Ha Hs. unfold pool_init.
  destruct (addr =? NULL) eqn:E1; [apply Z.eqb_eq in E1; contradiction|].
  destruct (size <=? header_size) eqn:E2; [apply Z.leb_le in E2; lia|].
  reflexivity.
Qed.

(** C9: when the address is null or the capacity does not exceed the header
    footprint, [pool_init] returns false and the whole state (memory with the
    free list, [pool_size], [pool_free_space]) is the one it was given. *)
Theorem pool_init_invalid hd st addr size :
  addr = NULL \/ size <= header_size ->
  pool_init hd st addr size = (false, st).
Proof.
  intros [Ha | Hs]; unfold pool_init.
  - subst addr. reflexivity.
  - destruct (addr =? NULL); [reflexivity|].
    destruct (size <=? header_size) eqn:E; [reflexivity|].
    apply Z.leb_gt in E. lia.
Qed.

Lemma pool_init_invalid_witness :
  pool_init HD (init_state HD zeros) BUF 24 = (false, init_state HD zeros).
Proof.
  apply pool_init_invalid. right. unfold header_size. lia.
Defined.

(** A failing [pool_malloc] hands back the state it was given, as long as the
    search did not pick a block whose payload address is the null address. *)
Lemma pool_malloc_null_state hd fuel st size st' :
  get_loc_to_place hd fuel (st_mem st) size <> Some (NULL - payload_off) ->
  pool_malloc hd fuel st size = Some (NULL, st') -> st' = st.
Proof.
  unfold pool_malloc. intros Hn.
  destruct (size <=? 0); [intros H; injection H; auto|].
  destruct (pool_free_space st <=? _); [intros H; injection H; auto|].
  destruct (get_loc_to_place hd fuel (st_mem st) size) as [ret|]; [|discriminate].
  destruct (ret =? NULL) eqn:E; [intros H; injection H; auto|].
  intros H. injection H as Hp _. exfalso. apply Hn. f_equal. lia.
Qed.

(** C8: when the allocation inside [pool_realloc] fails, [pool_realloc]
    returns NULL and the state is untouched: every byte of memory (the old
    block's header, its payload, the list links) and both counters are the
    ones before the call. *)
Theorem pool_realloc_fail hd fuel st addr size st' :
  get_loc_to_place hd fuel (st_mem st) size <> Some (NULL - payload_off) ->
  pool_malloc hd fuel st size = Some (NULL, st') ->
  pool_realloc hd fuel st addr size = Some (NULL, st) /\ st' = st.
Proof.
  intros Hn Hm. pose proof (pool_malloc_null_state _ _ _ _ _ Hn Hm) as ->.
  split; [|reflexivity]. unfold pool_realloc. rewrite Hm. reflexivity.
Qed.

Lemma pool_realloc_fail_witness :
  pool_realloc HD 8 (state_after 256 [Malloc 16]) (BUF + 8) 1000
    = Some (NULL, state_after 256 [Malloc 16])
  /\ state_after 256 [Malloc 16] = state_after 256 [Malloc 16].
Proof.
  apply (pool_realloc_fail HD 8 (state_after 256 [Malloc 16]) (BUF + 8) 1000).
  - intros H. vm_compute in H. discriminate H.
  - reflexivity.
Defined.

(** ** Bootstrap on an empty list *)

(** For a non-null address and a capacity above the header footprint,
    [pool_init] returns true and sets both counters to
    [capacity - word_size], whatever the state before; on the empty list of
    a program start (the block header not overlapping the sentinel), the
    header at [addr] holds that size and the block is the sole node of the
    list. *)
Lemma pool_init_ok hd st addr size :
  addr <> NULL -> header_size < size <= INT_MAX ->
  let r := pool_init hd st addr size in
  fst r = true /\
  pool_size (snd r) = size - word_size /\
  pool_free_space (snd r) = size - word_size /\
  (list_empty hd st ->
   0 <= addr -> 0 <= hd -> addr + header_size <= hd \/ hd + 16 <= addr ->
   hd + 16 <= 2 ^ 64 -> addr + header_size <= 2 ^ 64 ->
   block_size (snd r) addr = size - word_size /\ sole_node hd (snd r) addr).
Proof.
  intros Ha Hs r. unfold r. rewrite pool_init_mem by (unfold header_size in *; lia).
  cbn [fst snd pool_size pool_free_space st_mem].
  assert (Hw : int_wrap (size - word_size) = size - word_size)
    by (apply int_wrap_small; unfold INT_MAX, header_size, word_size in *; lia).
  rewrite Hw. split; [reflexivity|]. split; [reflexivity|]. split; [reflexivity|].
  intros [Hn Hp] Hge Hge' Hd Hh Hb.
  {
    assert (H64 : 2 ^ 64 = 18446744073709551616) by reflexivity.
    assert (Hnext : get_next (store_int (st_mem st) addr (size - word_size)) hd = hd).
    { rewrite <- Hn at 2. unfold store_int. unfold_mem. skip_store. reflexivity. }
    unfold block_size, sole_node, free_list_is, list_add.
    cbn [st_mem list_nodes]. rewrite Hnext.
    unfold store_int, load_int in *. unfold_mem.
    repeat split.
    + do 4 skip_store. fold (store_int (st_mem st) addr (size - 4)).
      fold (load_int (store_int (st_mem st) addr (size - 4)) addr).
      apply load_store_int. unfold INT_MAX in *. lia.
    + rewrite load_store_same. change (256 ^ Z.of_nat 8) with (2 ^ 64).
      rewrite Z.mod_small by lia. lia.
    + rewrite load_store_same. change (256 ^ Z.of_nat 8) with (2 ^ 64).
      rewrite Z.mod_small by lia. lia.
    + rewrite load_store_same. change (256 ^ Z.of_nat 8) with (2 ^ 64).
      rewrite (Z.mod_small (addr + 8)) by lia.
      do 2 skip_store. rewrite load_store_same.
      change (256 ^ Z.of_nat 8) with (2 ^ 64). apply Z.mod_small. lia.
    + do 3 skip_store. rewrite load_store_same.
      change (256 ^ Z.of_nat 8) with (2 ^ 64). rewrite Z.mod_small by lia. lia.
    + skip_store. rewrite load_store_same.
      change (256 ^ Z.of_nat 8) with (2 ^ 64). apply Z.mod_small. lia.
  }
Qed.

Lemma pool_init_ok_witness :
  block_size (snd (pool_init HD (init_state HD zeros) BUF 256)) BUF = 256 - word_size
  /\ sole_node HD (snd (pool_init HD (init_state HD zeros) BUF 256)) BUF.
Proof.
  destruct (pool_init_ok HD (init_state HD zeros) BUF 256) as (_ & _ & _ & H).
  - unfold BUF, NULL. lia.
  - unfold header_size, INT_MAX. lia.
  - apply H.
    + split; vm_compute; reflexivity.
    + unfold BUF. lia.
    + unfold HD. lia.
    + left. unfold BUF, HD, header_size. lia.
    + unfold HD. lia.
    + unfold BUF, header_size. lia.
Defined.

(** C4: [pool_init] called on a state that already has a free block.  On a
    second arena at [BUF + 1024] it returns true and sets both counters to
    252, but the sentinel is not reset: the list holds the new block followed
    by the old one (sizes 252 and 252), so the new block is not the sole node
    and the counter is not the sum of the list.  On the same arena again it
    returns true and leaves the block's node linked to itself, so a walk of
    the list never comes back to the sentinel. *)
Theorem pool_init_keeps_old_nodes :
  let st1 := snd (pool_init HD (init_state HD zeros) BUF 256) in
  let r := pool_init HD st1 (BUF + 1024) 256 in
  let r' := pool_init HD st1 BUF 256 in
  free_blocks st1 = Some [(BUF, 252)] /\
  fst r = true /\
  free_blocks (snd r) = Some [(BUF + 1024, 252); (BUF, 252)] /\
  pool_size (snd r) = 252 /\
  pool_free_space (snd r) = 252 /\
  ~ sole_node HD (snd r) (BUF + 1024) /\
  fst r' = true /\
  get_next (st_mem (snd r')) (BUF + payload_off) = BUF + payload_off /\
  free_list 64 HD (snd r') = None.
Proof.
  cbv zeta.
  split; [vm_compute; reflexivity|]. split; [reflexivity|].
  split; [vm_compute; reflexivity|]. split; [vm_compute; reflexivity|].
  split; [vm_compute; reflexivity|]. split.
  { intros [H _]. unfold free_list_is in H. cbn [list_nodes] in H.
    destruct H as (_ & _ & H). vm_compute in H. discriminate H. }
  split; [reflexivity|]. split; vm_compute; reflexivity.
Qed.

(** ** The list walk *)

Lemma walk_sound hd m : forall fuel node l,
  walk fuel m hd node = Some l -> list_nodes m hd node l.
Proof.
  induction fuel as [|fuel IH]; intros node l H; cbn [walk] in H;
    destruct (node =? hd) eqn:E.
  - injection H as <-. apply Z.eqb_eq in E. exact E.
  - discriminate H.
  - injection H as <-. apply Z.eqb_eq in E. exact E.
  - destruct (walk fuel m hd (get_next m node)) as [l'|] eqn:W; [|discriminate H].
    injection H as <-. cbn [list_nodes]. apply Z.eqb_neq in E.
    split; [lia|]. split; [exact E|]. apply IH. exact W.
Qed.

Lemma walk_complete hd m : forall l node fuel,
  list_nodes m hd node l -> (length l <= fuel)%nat ->
  walk fuel m hd node = Some l.
Proof.
  induction l as [|b l IH]; intros node fuel Hl Hf; cbn [list_nodes] in Hl.
  - subst node. destruct fuel; cbn [walk]; rewrite Z.eqb_refl; reflexivity.
  - destruct Hl as (Hb & Hne & Hl). cbn [length] in Hf.
    destruct fuel as [|fuel]; [lia|]. cbn [walk].
    apply Z.eqb_neq in Hne. rewrite Hne.
    rewrite (IH _ fuel Hl) by lia. f_equal. f_equal. lia.
Qed.

(** ** Rounding and the first-fit search *)

Lemma round_up_spec x :
  0 < x <= INT_MAX - 3 ->
  round_up x = word_size * ((x + 3) / word_size) /\
  x <= round_up x < x + word_size /\
  round_up x mod word_size = 0.
Proof.
  intros H. unfold round_up, log2_word_size, word_size.
  change (int_wrap (Z.shiftl 1 2 - 1)) with 3.
  rewrite (int_wrap_small (x + 3)) by (unfold INT_MAX in *; lia).
  rewrite Z.shiftr_div_pow2, Z.shiftl_mul_pow2 by lia.
  change (2 ^ 2) with 4.
  assert (Hd : x <= (x + 3) / 4 * 4 < x + 4).
  { pose proof (Z.div_mod (x + 3) 4 ltac:(lia)) as E.
    pose proof (Z.mod_pos_bound (x + 3) 4 ltac:(lia)). lia. }
  rewrite int_wrap_small by (unfold INT_MAX in *; lia).
  split; [lia|]. split; [lia|]. apply Z.mod_mul. lia.
Qed.

(** On a list that [next] leads through, the search returns the first
    block whose size field is at least [size + header_size], for the [size]
    it is called with. *)
Lemma place_loop_first_fit hd m size : forall l node fuel,
  list_nodes m hd node l -> (length l <= fuel)%nat ->
  place_loop hd fuel m node size =
    Some (match find (fun b => int_wrap (size + header_size) <=? load_int m b) l with
          | Some b => b
          | None => NULL
          end).
Proof.
  induction l as [|b l IH]; intros node fuel Hl Hf; cbn [list_nodes] in Hl.
  - subst node. destruct fuel; cbn [place_loop find]; rewrite Z.eqb_refl; reflexivity.
  - destruct Hl as (Hb & Hne & Hl). cbn [length] in Hf.
    destruct fuel as [|fuel]; [lia|]. cbn [place_loop find].
    apply Z.eqb_neq in Hne. rewrite Hne.
    replace (node - payload_off) with b by lia.
    rewrite Z.geb_leb.
    destruct (int_wrap (size + header_size) <=? load_int m b); [reflexivity|].
    apply IH; [exact Hl | lia].
Qed.

(** What a successful [pool_malloc] does, given the block the search found. *)
Lemma pool_malloc_found hd fuel st size ret :
  0 < size ->
  int_wrap (round_up size + header_size) < pool_free_space st ->
  get_loc_to_place hd fuel (st_mem st) size = Some ret -> ret <> NULL ->
  exists st',
    pool_malloc hd fuel st size = Some (ret + payload_off, st') /\
    pool_size st' = pool_size st /\
    pool_free_space st' =
      int_wrap (int_wrap (pool_free_space st - round_up size) - word_size) /\
    st_mem st' =
      list_replace
        (store_int
           (store_int (st_mem st) (ret + payload_off + ptr_size * round_up size)
              (int_wrap (int_wrap (load_int (st_mem st) ret - word_size)
                         - round_up size)))
           ret (round_up size))
        (ret + payload_off)
        (ret + payload_off + ptr_size * round_up size + payload_off).
Proof.
  intros Hs Hf Hg Hr. unfold pool_malloc.
  destruct (size <=? 0) eqn:E1; [apply Z.leb_le in E1; lia|].
  destruct (pool_free_space st <=? _) eqn:E2; [apply Z.leb_le in E2; lia|].
  rewrite Hg. destruct (ret =? NULL) eqn:E3; [apply Z.eqb_eq in E3; contradiction|].
  eexists. split; [reflexivity|]. repeat split.
Qed.

(** ** Splitting *)

(** C2: [pool_init(BUF, 256)] then [pool_malloc(32)] succeeds on the block at
    [BUF] of size 252.  The found block's size becomes 32, the remainder has
    size [252 - word_size - 32] and the counter drops by [32 + word_size], as
    claimed; but the remainder sits [ptr_size * 32 = 256] bytes past the
    payload start, not 32 bytes past it. *)
Theorem pool_malloc_split_offset :
  round_up 32 = 32 /\
  free_blocks (state_after 256 []) = Some [(BUF, 252)] /\
  pool_free_space (state_after 256 []) = 252 /\
  option_map
    (fun r => (fst r, free_blocks (snd r), block_size (snd r) BUF,
               pool_free_space (snd r)))
    (pool_malloc HD 8 (state_after 256 []) 32)
  = Some (BUF + payload_off,
          Some [(BUF + payload_off + ptr_size * 32, 252 - word_size - 32)],
          32, 252 - (32 + word_size)) /\
  BUF + payload_off + ptr_size * 32 <> BUF + payload_off + 32.
Proof.
  repeat split; try (vm_compute; reflexivity).
  vm_compute. discriminate.
Qed.

(** ** First fit *)

(** C3: after [pool_init(BUF, 1045)], two [pool_malloc(4)] and the release of
    the first, the free blocks have sizes 4 and 1025 and the counter is 1029.
    [pool_malloc(1001)] passes the admission check ([need = 1004],
    [1029 > 1004 + 24]); no free block has size at least
    [need + header_size = 1028], yet the call returns the payload of the
    block of size 1025, because the search is made with the unrounded size. *)
Theorem pool_malloc_fit_unrounded :
  let st := state_after 1045 [Malloc 4; Malloc 4; Free (BUF + 8)] in
  round_up 1001 = 1004 /\
  free_blocks st = Some [(BUF, 4); (BUF + 80, 1025)] /\
  (pool_free_space st <=? round_up 1001 + header_size) = false /\
  first_fit (round_up 1001) [(BUF, 4); (BUF + 80, 1025)] = None /\
  first_fit 1001 [(BUF, 4); (BUF + 80, 1025)] = Some (BUF + 80) /\
  option_map fst (pool_malloc HD 8 st 1001) = Some (BUF + 80 + payload_off).
Proof.
  cbv zeta. repeat split; vm_compute; reflexivity.
Qed.

(** ** Address order *)

(** C5: a run from [pool_init(BUF, 1024)] in which every release is of a
    pointer the caller holds ends with the free list holding the block at
    [BUF + 160] before the block at [BUF]. *)
Theorem free_list_out_of_order :
  let ops := [Malloc 4; Malloc 4; Malloc 4; Malloc 4;
              Free (BUF + 8); Free (BUF + 88); Malloc 8;
              Free (BUF + 128); Free (BUF + 48); Malloc 44;
              Free (BUF + 240); Free (BUF + 168)] in
  fst (boot HD zeros BUF 1024) = true /\
  outcome 1024 ops = Some ([], Some [(BUF + 160, 8); (BUF, 1008)], 1016) /\
  increasing [BUF + 160; BUF] = false.
Proof.
  cbv zeta. repeat split; vm_compute; reflexivity.
Qed.

(** ** Coalescing *)

(** C6: [pool_init(BUF, 256)], three [pool_malloc(8)], then the three blocks
    released in allocation order: two free blocks remain, of sizes 20 and 228,
    instead of one block of size [256 - word_size]. *)
Theorem release_all_leaves_two_blocks :
  let ops := [Malloc 8; Malloc 8; Malloc 8;
              Free (BUF + 8); Free (BUF + 80); Free (BUF + 152)] in
  outcome 256 [Malloc 8; Malloc 8; Malloc 8]
    = Some ([BUF + 152; BUF + 80; BUF + 8], Some [(BUF + 216, 216)], 216) /\
  outcome 256 ops = Some ([], Some [(BUF, 20); (BUF + 144, 228)], 248) /\
  free_blocks (state_after 256 ops) <> Some [(BUF, 256 - word_size)].
Proof.
  cbv zeta. repeat split; try (vm_compute; reflexivity).
  vm_compute. discriminate.
Qed.

(** ** Resize *)

Lemma memcpy_out (n : nat) : forall m dst src x,
  x < dst \/ dst + Z.of_nat n <= x -> memcpy m dst src n x = m x.
Proof.
  induction n as [|n IH]; intros m dst src x H; cbn [memcpy]; [reflexivity|].
  rewrite IH by lia. unfold store_byte.
  destruct (x =? dst) eqn:E; [apply Z.eqb_eq in E; lia | reflexivity].
Qed.

(** [memcpy] between disjoint ranges makes each of the [n] destination
    bytes equal to the source byte at the same offset. *)
Lemma memcpy_byte (n : nat) : forall m dst src i,
  src + Z.of_nat n <= dst \/ dst + Z.of_nat n <= src ->
  0 <= i < Z.of_nat n ->
  load_byte (memcpy m dst src n) (dst + i) = load_byte m (src + i).
Proof.
  induction n as [|n IH]; intros m dst src i Hd Hi; [simpl in Hi; lia|].
  cbn [memcpy]. rewrite Nat2Z.inj_succ in *.
  destruct (Z.eq_dec i 0) as [->|Hne].
  - rewrite !Z.add_0_r. unfold load_byte at 1. rewrite memcpy_out by lia.
    unfold store_byte. rewrite Z.eqb_refl. unfold load_byte.
    rewrite !Z.mod_mod by lia. reflexivity.
  - replace (dst + i) with (dst + 1 + (i - 1)) by lia.
    rewrite IH by lia. unfold load_byte, store_byte.
    destruct (src + 1 + (i - 1) =? dst) eqn:E; [apply Z.eqb_eq in E; lia|].
    f_equal. f_equal. lia.
Qed.

(** Whenever the allocation inside [pool_realloc] succeeds, the bytes copied
    are the [size] bytes at [addr], [size] being the requested new size. *)
Lemma pool_realloc_copy_length hd fuel st addr size ptr st1 :
  pool_malloc hd fuel st size = Some (ptr, st1) -> ptr <> NULL ->
  pool_realloc hd fuel st addr size =
    option_map (pair ptr)
      (pool_free hd fuel
         (mkState (memcpy (st_mem st1) ptr addr (Z.to_nat size))
            (pool_size st1) (pool_free_space st1))
         addr).
Proof.
  intros Hm Hp. unfold pool_realloc. rewrite Hm.
  destruct (ptr =? NULL) eqn:E; [apply Z.eqb_eq in E; contradiction|].
  destruct (pool_free _ _ _ _); reflexivity.
Qed.


(** C1: the block at [BUF] is live with 8 payload bytes at [BUF + 8].
    [pool_realloc(BUF + 8, 24)] succeeds and returns [BUF + 80]; the 24
    bytes there are the 24 bytes that followed the old pointer, so 24 bytes
    were copied, 16 more than [min(8, 24)]: bytes 16..23 of the result, which
    held other values before the call, now hold what lay behind the old
    payload. *)
Theorem pool_realloc_copies_new_size :
  block_size marked_live8 BUF = 8 /\
  option_map
    (fun r => (fst r, bytes_at (st_mem (snd r)) (fst r) 24))
    (pool_realloc HD 8 marked_live8 (BUF + 8) 24)
  = Some (BUF + 80, bytes_at (st_mem marked_live8) (BUF + 8) 24) /\
  bytes_at (st_mem marked_live8) (BUF + 8 + 16) 8 = [5; 6; 7; 1; 2; 3; 4; 5] /\
  bytes_at (st_mem marked_live8) (BUF + 80 + 16) 8 = [7; 1; 2; 3; 4; 5; 6; 7] /\
  Z.min 8 24 = 8.
Proof.
  repeat split; vm_compute; reflexivity.
Qed.

(** ** The free-space counter *)

(** C7: six allocations, their release, and two more allocations, every
    release being of a pointer the caller holds.  The last allocation writes the links of its
    remainder block over the size field of the free block at [BUF + 192]:
    the free list is then [BUF + 192; BUF + 176] with size fields 1048576
    and 980, and the counter is 988. *)
Theorem free_space_not_sum :
  let ops := [Malloc 4; Malloc 4; Malloc 4; Malloc 8; Malloc 8; Malloc 4;
              Free (BUF + 8); Free (BUF + 88); Free (BUF + 128);
              Free (BUF + 48); Free (BUF + 272); Free (BUF + 200);
              Malloc 4; Malloc 16] in
  fst (boot HD zeros BUF 1024) = true /\
  outcome 1024 ops
    = Some ([BUF + 48; BUF + 8],
            Some [(BUF + 192, 1048576); (BUF + 176, 980)], 988) /\
  free_list 64 HD (state_after 1024 ops) = Some [BUF + 192; BUF + 176] /\
  pool_free_space (state_after 1024 ops)
    <> sum_sizes (state_after 1024 ops) [BUF + 192; BUF + 176].
Proof.
  cbv zeta. repeat split; try (vm_compute; reflexivity).
  vm_compute. discriminate.
Qed.

(** ** Emptiness *)

(** C10: the sentinel lies 272 bytes behind a 256-byte arena.  After
    [pool_init(BUF, 256)] the list holds the block at [BUF];
    [pool_malloc(64)] succeeds, and its remainder header, placed
    [ptr_size * 64] bytes past the payload start, has the sentinel as its
    list node: [list_replace] links the sentinel to itself and the free list
    is empty after a successful allocation. *)
Theorem pool_malloc_empties_list :
  let hd := BUF + 528 in
  let r := pool_init hd (init_state hd zeros) BUF 256 in
  fst r = true /\
  free_list 8 hd (snd r) = Some [BUF] /\
  BUF + payload_off + ptr_size * round_up 64 + payload_off = hd /\
  option_map
    (fun x => (fst x, free_list 8 hd (snd x),
               get_next (st_mem (snd x)) hd, get_prev (st_mem (snd x)) hd))
    (pool_malloc hd 8 (snd r) 64)
  = Some (BUF + payload_off, Some [], hd, hd).
Proof.
  cbv zeta. repeat split; vm_compute; reflexivity.
Qed.

(** * Further properties of the allocator *)

(** ** [round_up] *)

(** X1: for a positive request that leaves room for the rounding offset,
    [round_up] returns the least multiple of [word_size] that is at least the
    request; it is less than one word above it and rounding again changes
    nothing. *)
Theorem round_up_least_multiple x :
  0 < x <= INT_MAX - 3 ->
  round_up x mod word_size = 0 /\
  x <= round_up x < x + word_size /\
  (forall y, x <= y -> y mod word_size = 0 -> round_up x <= y) /\
  round_up (round_up x) = round_up x.
Proof.
  intros H. destruct (round_up_spec x H) as (He & Hb & Hm).
  split; [exact Hm|]. split; [exact Hb|]. split.
  - intros y Hy Hy4. unfold word_size in *.
    apply Z.mod_divide in Hy4; [|lia]. destruct Hy4 as [q ->].
    apply Z.mod_divide in Hm; [|lia]. destruct Hm as [r Hr].
    rewrite Hr in *. lia.
  - unfold word_size in *.
    assert (Hr : 0 < round_up x <= INT_MAX - 3).
    { apply Z.mod_divide in Hm; [|lia]. destruct Hm as [r Hr].
      unfold INT_MAX in *. lia. }
    destruct (round_up_spec (round_up x) Hr) as (_ & Hb' & Hm').
    unfold word_size in *.
    apply Z.mod_divide in Hm; [|lia]. destruct Hm as [r Hr1].
    apply Z.mod_divide in Hm'; [|lia]. destruct Hm' as [r' Hr2].
    lia.
Qed.

Lemma round_up_least_multiple_witness :
  round_up 13 mod word_size = 0 /\
  13 <= round_up 13 < 13 + word_size /\
  (forall y, 13 <= y -> y mod word_size = 0 -> round_up 13 <= y) /\
  round_up (round_up 13) = round_up 13.
Proof.
  apply round_up_least_multiple. unfold INT_MAX. lia.
Defined.

(** ** Admission and the two searches *)

(** X2: a request that is not positive, or whose size plus the header
    footprint reaches the free-space counter, is refused without walking the
    list: [pool_malloc] returns NULL and the state it was given, for every
    amount of fuel and every list. *)
Theorem pool_malloc_refuses hd fuel st size :
  size <= INT_MAX - 27 ->
  size <= 0 \/ pool_free_space st <= size + header_size ->
  pool_malloc hd fuel st size = Some (NULL, st).
Proof.
  intros Hr H. unfold pool_malloc.
  destruct (size <=? 0) eqn:E; [reflexivity|]. apply Z.leb_gt in E.
  destruct H as [H|H]; [lia|].
  destruct (round_up_spec size) as (_ & Hb & _); [unfold INT_MAX in *; lia|].
  unfold header_size, word_size in *.
  rewrite int_wrap_small by (unfold INT_MAX in *; lia).
  destruct (pool_free_space st <=? round_up size + 24) eqn:E2; [reflexivity|].
  apply Z.leb_gt in E2. lia.
Qed.

Lemma pool_malloc_refuses_witness :
  pool_malloc HD 0 (state_after 64 []) 1000 = Some (NULL, state_after 64 []).
Proof.
  apply pool_malloc_refuses.
  - unfold INT_MAX. lia.
  - right. vm_compute. discriminate.
Defined.

(** X3: on a free list that [next] leads through, with fuel for its length,
    [get_loc_to_place] returns the first block in list order whose size
    field is at least the size it is called with plus [header_size], and
    NULL when there is none. *)
Theorem get_loc_to_place_first_fit hd fuel m size l :
  list_nodes m hd (get_next m hd) l -> (length l <= fuel)%nat ->
  - INT_MAX - 1 <= size + header_size <= INT_MAX ->
  get_loc_to_place hd fuel m size =
    Some (match find (fun b => size + header_size <=? load_int m b) l with
          | Some b => b
          | None => NULL
          end).
Proof.
  intros Hl Hf Hr. unfold get_loc_to_place.
  rewrite (place_loop_first_fit hd m size l _ fuel Hl Hf).
  rewrite int_wrap_small by exact Hr. reflexivity.
Qed.

Lemma get_loc_to_place_first_fit_witness :
  get_loc_to_place HD 4
    (st_mem (state_after 1045 [Malloc 4; Malloc 4; Free (BUF + 8)])) 100
  = Some (match find (fun b => 100 + header_size <=?
                        load_int (st_mem (state_after 1045
                                    [Malloc 4; Malloc 4; Free (BUF + 8)])) b)
                  [BUF; BUF + 80] with
          | Some b => b
          | None => NULL
          end).
Proof.
  apply get_loc_to_place_first_fit.
  - apply walk_sound with (fuel := 4%nat). vm_compute. reflexivity.
  - simpl. lia.
  - unfold header_size, INT_MAX. lia.
Defined.

Lemma free_loop_first_above hd m target : forall l node fuel,
  list_nodes m hd node l -> (length l <= fuel)%nat ->
  free_loop hd fuel m node target =
    Some (match find (fun b => uintptr target <? uintptr b) l with
          | Some b => b + payload_off
          | None => hd
          end).
Proof.
  induction l as [|b l IH]; intros node fuel Hl Hf; cbn [list_nodes] in Hl.
  - subst node. destruct fuel; cbn [free_loop find]; rewrite Z.eqb_refl; reflexivity.
  - destruct Hl as (Hb & Hne & Hl). cbn [length] in Hf.
    destruct fuel as [|fuel]; [lia|]. cbn [free_loop find].
    apply Z.eqb_neq in Hne. rewrite Hne.
    replace (node - payload_off) with b by lia.
    destruct (uintptr target <? uintptr b); [f_equal; lia|].
    apply IH; [exact Hl | lia].
Qed.

(** X4: [get_loc_to_free] on a list of one block returns that block's node
    whatever the released address is; on any other list that [next] leads
    through it returns the node of the first block whose address, compared
    as [uintptr_t], is above that of the released block, and the sentinel
    when there is none. *)
Theorem get_loc_to_free_spec hd fuel m addr l :
  list_nodes m hd (get_next m hd) l -> (length l <= fuel)%nat ->
  (forall b, l = [b] -> get_prev m hd = b + payload_off ->
     get_loc_to_free hd fuel m addr = Some (b + payload_off)) /\
  (list_is_singular m hd = false ->
     get_loc_to_free hd fuel m addr =
       Some (match find (fun b => uintptr (addr - payload_off) <? uintptr b) l with
             | Some b => b + payload_off
             | None => hd
             end)).
Proof.
  intros Hl Hf. split.
  - intros b -> Hp. cbn [list_nodes] in Hl. destruct Hl as (Hn & Hne & _).
    unfold get_loc_to_free, list_is_singular.
    rewrite Hp, Hn, Z.eqb_refl. apply Z.eqb_neq in Hne. rewrite <- Hn, Hne.
    reflexivity.
  - intros Hs. unfold get_loc_to_free. rewrite Hs.
    apply free_loop_first_above; assumption.
Qed.

(** Both halves at work: the one free block of a fresh arena is returned for
    an address above it, and among two free blocks the one above the
    released block is. *)
Lemma get_loc_to_free_spec_witness :
  get_loc_to_free HD 1 fresh_256 (BUF + 1000) = Some (BUF + payload_off) /\
  get_loc_to_free HD 4 (st_mem two_free) (BUF + 48) = Some (BUF + 120 + payload_off).
Proof.
  split.
  - destruct (get_loc_to_free_spec HD 1 fresh_256 (BUF + 1000) [BUF]) as [H _].
    + apply walk_sound with (fuel := 4%nat). vm_compute. reflexivity.
    + simpl. lia.
    + apply (H BUF eq_refl). vm_compute. reflexivity.
  - destruct (get_loc_to_free_spec HD 4 (st_mem two_free) (BUF + 48) [BUF; BUF + 120])
      as [_ H].
    + apply walk_sound with (fuel := 4%nat). vm_compute. reflexivity.
    + simpl. lia.
    + rewrite H by (vm_compute; reflexivity). vm_compute. reflexivity.
Defined.

(** ** Zero-initialised allocation *)

Lemma memset_out (n : nat) : forall m p c x,
  x < p \/ p + Z.of_nat n <= x -> memset m p c n x = m x.
Proof.
  induction n as [|n IH]; intros m p c x H; cbn [memset]; [reflexivity|].
  rewrite IH by lia. unfold store_byte.
  destruct (x =? p) eqn:E; [apply Z.eqb_eq in E; lia | reflexivity].
Qed.

Lemma memset_in (n : nat) : forall m p c i,
  0 <= i < Z.of_nat n -> load_byte (memset m p c n) (p + i) = c mod 256.
Proof.
  induction n as [|n IH]; intros m p c i Hi; [simpl in Hi; lia|].
  cbn [memset]. rewrite Nat2Z.inj_succ in Hi.
  destruct (Z.eq_dec i 0) as [->|Hne].
  - rewrite Z.add_0_r. unfold load_byte. rewrite memset_out by lia.
    unfold store_byte. rewrite Z.eqb_refl. apply Z.mod_mod. lia.
  - replace (p + i) with (p + 1 + (i - 1)) by lia. apply IH. lia.
Qed.

(** X5: when [pool_calloc] returns a non-null pointer, it is the pointer and
    the counters of the [pool_malloc] it made, the [size] bytes at the
    pointer are zero, and every byte outside them is as [pool_malloc] left
    it. *)
Theorem pool_calloc_zeroes hd fuel st size ptr st' :
  pool_calloc hd fuel st size = Some (ptr, st') -> ptr <> NULL ->
  exists st1,
    pool_malloc hd fuel st size = Some (ptr, st1) /\
    pool_size st' = pool_size st1 /\
    pool_free_space st' = pool_free_space st1 /\
    (forall i, 0 <= i < size -> load_byte (st_mem st') (ptr + i) = 0) /\
    (forall x, x < ptr \/ ptr + size <= x -> st_mem st' x = st_mem st1 x).
Proof.
  unfold pool_calloc. intros H Hp.
  destruct (pool_malloc hd fuel st size) as [[p st1]|]; [|discriminate H].
  destruct (p =? NULL) eqn:E.
  - injection H as <- _. contradiction.
  - injection H as -> <-. exists st1. cbn [pool_size pool_free_space st_mem].
    split; [reflexivity|]. split; [reflexivity|]. split; [reflexivity|]. split.
    + intros i Hi. rewrite memset_in by (rewrite Z2Nat.id; lia). reflexivity.
    + intros x Hx. destruct (Z_le_dec size 0) as [Hs|Hs].
      * replace (Z.to_nat size) with O by lia. reflexivity.
      * apply memset_out. rewrite Z2Nat.id by lia. exact Hx.
Qed.

Lemma pool_calloc_zeroes_witness :
  exists st1,
    pool_malloc HD 4 marked_128 16 = Some (BUF + 8, st1) /\
    pool_size marked_calloc16 = pool_size st1 /\
    pool_free_space marked_calloc16 = pool_free_space st1 /\
    (forall i, 0 <= i < 16 -> load_byte (st_mem marked_calloc16) (BUF + 8 + i) = 0) /\
    (forall x, x < BUF + 8 \/ BUF + 8 + 16 <= x ->
       st_mem marked_calloc16 x = st_mem st1 x).
Proof.
  apply (pool_calloc_zeroes HD 4 marked_128 16 (BUF + 8) marked_calloc16).
  - reflexivity.
  - unfold BUF, NULL. lia.
Defined.

(** ** Link and size cells

    A list node at [n] has its [prev] cell at [n, n + 8) and its [next]
    cell at [n + 8, n + 16); a block at [b] has its size cell at
    [b, b + 4).  A load sees the last store to its own cell and no store to a
    cell disjoint from it. *)

Lemma load_le_range (n : nat) : forall m a, 0 <= load_le n m a < 256 ^ Z.of_nat n.
Proof.
  induction n as [|n IH]; intros m a.
  - simpl. lia.
  - cbn [load_le]. rewrite Nat2Z.inj_succ, Z.pow_succ_r by lia.
    specialize (IH m (a + 1)). unfold load_byte.
    pose proof (Z.mod_pos_bound (m a) 256 ltac:(lia)). lia.
Qed.

Lemma get_prev_range m n : 0 <= get_prev m n < 2 ^ 64.
Proof. apply (load_le_range 8). Qed.

Lemma get_next_range m n : 0 <= get_next m n < 2 ^ 64.
Proof. apply (load_le_range 8). Qed.

Lemma get_prev_set_prev_same m n v :
  0 <= v < 2 ^ 64 -> get_prev (set_prev m n v) n = v.
Proof. intros H. unfold get_prev, set_prev. apply load_store_ptr. exact H. Qed.

Lemma get_next_set_next_same m n v :
  0 <= v < 2 ^ 64 -> get_next (set_next m n v) n = v.
Proof. intros H. unfold get_next, set_next. apply load_store_ptr. exact H. Qed.

Lemma get_prev_set_prev_other m n n' v :
  n + 8 <= n' \/ n' + 8 <= n -> get_prev (set_prev m n' v) n = get_prev m n.
Proof. intros H. unfold_mem. skip_store. reflexivity. Qed.

Lemma get_prev_set_next_other m n n' v :
  n <= n' \/ n' + 16 <= n -> get_prev (set_next m n' v) n = get_prev m n.
Proof. intros H. unfold_mem. skip_store. reflexivity. Qed.

Lemma get_next_set_prev_other m n n' v :
  n + 16 <= n' \/ n' <= n -> get_next (set_prev m n' v) n = get_next m n.
Proof. intros H. unfold_mem. skip_store. reflexivity. Qed.

Lemma get_next_set_next_other m n n' v :
  n + 8 <= n' \/ n' + 8 <= n -> get_next (set_next m n' v) n = get_next m n.
Proof. intros H. unfold_mem. skip_store. reflexivity. Qed.

Lemma get_prev_store_int m n a v :
  n + 8 <= a \/ a + 4 <= n -> get_prev (store_int m a v) n = get_prev m n.
Proof. intros H. unfold store_int. unfold_mem. skip_store. reflexivity. Qed.

Lemma get_next_store_int m n a v :
  n + 16 <= a \/ a + 4 <= n + 8 -> get_next (store_int m a v) n = get_next m n.
Proof. intros H. unfold store_int. unfold_mem. skip_store. reflexivity. Qed.

Lemma load_int_set_prev m a n v :
  a + 4 <= n \/ n + 8 <= a -> load_int (set_prev m n v) a = load_int m a.
Proof. intros H. unfold load_int. unfold_mem. skip_store. reflexivity. Qed.

Lemma load_int_set_next m a n v :
  a + 4 <= n + 8 \/ n + 16 <= a -> load_int (set_next m n v) a = load_int m a.
Proof. intros H. unfold load_int. unfold_mem. skip_store. reflexivity. Qed.

Lemma load_int_store_int_other m a a' v :
  a + 4 <= a' \/ a' + 4 <= a -> load_int (store_int m a' v) a = load_int m a.
Proof. intros H. unfold load_int, store_int. skip_store. reflexivity. Qed.

Lemma set_prev_out m n v x : x < n \/ n + 8 <= x -> set_prev m n v x = m x.
Proof. intros H. unfold_mem. apply store_le_out. simpl Z.of_nat. lia. Qed.

Lemma set_next_out m n v x : x < n + 8 \/ n + 16 <= x -> set_next m n v x = m x.
Proof. intros H. unfold_mem. apply store_le_out. simpl Z.of_nat. lia. Qed.

Lemma store_int_out m a v x : x < a \/ a + 4 <= x -> store_int m a v x = m x.
Proof. intros H. unfold store_int. apply store_le_out. simpl Z.of_nat. lia. Qed.

Lemma load_store_int_id m a v :
  -2147483648 <= v <= 2147483647 -> load_int (store_int m a v) a = v.
Proof. intros H. apply load_store_int. unfold INT_MAX. lia. Qed.

Ltac mem_rw :=
  repeat first
    [ rewrite get_prev_set_prev_same by lia
    | rewrite get_next_set_next_same by lia
    | rewrite load_store_int_id by lia
    | rewrite get_prev_set_prev_other by lia
    | rewrite get_prev_set_next_other by lia
    | rewrite get_next_set_prev_other by lia
    | rewrite get_next_set_next_other by lia
    | rewrite get_prev_store_int by lia
    | rewrite get_next_store_int by lia
    | rewrite load_int_set_prev by lia
    | rewrite load_int_set_next by lia
    | rewrite load_int_store_int_other by lia ].

Ltac frame_rw :=
  repeat first
    [ rewrite set_prev_out by lia
    | rewrite set_next_out by lia
    | rewrite store_int_out by lia ].

(** ** The two list operations of [mpool.c] *)

Lemma list_replace_cells m from to :
  0 <= to < 2 ^ 64 ->
  to + 16 <= get_next m from \/ get_next m from + 8 <= to ->
  to + 8 <= get_prev m from \/ get_prev m from + 16 <= to ->
  get_next m from <= get_prev m from \/ get_prev m from + 16 <= get_next m from ->
  get_prev (list_replace m from to) to = get_prev m from /\
  get_next (list_replace m from to) to = get_next m from /\
  get_next (list_replace m from to) (get_prev m from) = to /\
  get_prev (list_replace m from to) (get_next m from) = to /\
  (forall x,
     x < to \/ to + 16 <= x ->
     x < get_next m from \/ get_next m from + 8 <= x ->
     x < get_prev m from + 8 \/ get_prev m from + 16 <= x ->
     list_replace m from to x = m x).
Proof.
  intros Hto HN HP HNP.
  pose proof (get_prev_range m from) as RP. pose proof (get_next_range m from) as RN.
  set (P := get_prev m from) in *. set (N := get_next m from) in *.
  unfold list_replace. fold P. fold N.
  assert (E1 : get_next (set_next (set_prev m to P) to N) to = N) by (mem_rw; reflexivity).
  rewrite E1.
  assert (E2 : get_prev (set_prev (set_next (set_prev m to P) to N) N to) to = P)
    by (mem_rw; reflexivity).
  rewrite E2.
  split; [mem_rw; reflexivity|]. split; [mem_rw; reflexivity|].
  split; [mem_rw; reflexivity|]. split; [mem_rw; reflexivity|].
  intros x H1 H2 H3. frame_rw. reflexivity.
Qed.

(** X6: [list_replace(from, to)] puts [to] where [from] was: when the two
    cells of [to] are apart from the [prev] cell of [from]'s successor and
    the [next] cell of its predecessor (and those two cells from each
    other), [to] ends with [from]'s two links, both neighbours point to
    [to], and no byte outside these four cells changes. *)
Theorem list_replace_links m from to :
  0 <= to < 2 ^ 64 ->
  to + 16 <= get_next m from \/ get_next m from + 8 <= to ->
  to + 8 <= get_prev m from \/ get_prev m from + 16 <= to ->
  get_next m from <= get_prev m from \/ get_prev m from + 16 <= get_next m from ->
  get_prev (list_replace m from to) to = get_prev m from /\
  get_next (list_replace m from to) to = get_next m from /\
  get_next (list_replace m from to) (get_prev m from) = to /\
  get_prev (list_replace m from to) (get_next m from) = to /\
  (forall x,
     x < to \/ to + 16 <= x ->
     x < get_next m from \/ get_next m from + 8 <= x ->
     x < get_prev m from + 8 \/ get_prev m from + 16 <= x ->
     list_replace m from to x = m x).
Proof. apply list_replace_cells. Qed.


Ltac by_eval := vm_compute; first [reflexivity | discriminate].

Lemma list_replace_links_witness :
  get_prev (list_replace fresh_256 (BUF + 8) (BUF + 80)) (BUF + 80)
    = get_prev fresh_256 (BUF + 8) /\
  get_next (list_replace fresh_256 (BUF + 8) (BUF + 80)) (BUF + 80)
    = get_next fresh_256 (BUF + 8) /\
  get_next (list_replace fresh_256 (BUF + 8) (BUF + 80)) (get_prev fresh_256 (BUF + 8))
    = BUF + 80 /\
  get_prev (list_replace fresh_256 (BUF + 8) (BUF + 80)) (get_next fresh_256 (BUF + 8))
    = BUF + 80 /\
  (forall x,
     x < BUF + 80 \/ BUF + 80 + 16 <= x ->
     x < get_next fresh_256 (BUF + 8) \/ get_next fresh_256 (BUF + 8) + 8 <= x ->
     x < get_prev fresh_256 (BUF + 8) + 8 \/ get_prev fresh_256 (BUF + 8) + 16 <= x ->
     list_replace fresh_256 (BUF + 8) (BUF + 80) x = fresh_256 x).
Proof.
  apply list_replace_links.
  - by_eval || (split; by_eval).
  - left. by_eval.
  - left. by_eval.
  - left. by_eval.
Defined.

Lemma list_insert_before_cells m node after :
  0 <= node < 2 ^ 64 -> 0 <= after < 2 ^ 64 ->
  node + 16 <= after \/ after + 8 <= node ->
  node + 8 <= get_prev m after \/ get_prev m after + 16 <= node ->
  after <= get_prev m after \/ get_prev m after + 16 <= after ->
  get_prev (list_insert_before m node after) node = get_prev m after /\
  get_next (list_insert_before m node after) node = after /\
  get_prev (list_insert_before m node after) after = node /\
  get_next (list_insert_before m node after) (get_prev m after) = node /\
  (forall x,
     x < node \/ node + 16 <= x ->
     x < after \/ after + 8 <= x ->
     x < get_prev m after + 8 \/ get_prev m after + 16 <= x ->
     list_insert_before m node after x = m x).
Proof.
  intros Hn Ha H1 H2 H3.
  pose proof (get_prev_range m after) as RP.
  set (P := get_prev m after) in *.
  unfold list_insert_before. fold P.
  split; [mem_rw; reflexivity|]. split; [mem_rw; reflexivity|].
  split; [mem_rw; reflexivity|]. split; [mem_rw; reflexivity|].
  intros x X1 X2 X3. frame_rw. reflexivity.
Qed.

(** X7: [list_insert_before(node, after)] links [node] between [after] and
    the node that preceded it: when the cells of [node] are apart from the
    [prev] cell of [after] and the [next] cell of that predecessor (and those
    two from each other), the four links are as a doubly linked list wants
    them and no byte outside these cells changes. *)
Theorem list_insert_before_links m node after :
  0 <= node < 2 ^ 64 -> 0 <= after < 2 ^ 64 ->
  node + 16 <= after \/ after + 8 <= node ->
  node + 8 <= get_prev m after \/ get_prev m after + 16 <= node ->
  after <= get_prev m after \/ get_prev m after + 16 <= after ->
  get_prev (list_insert_before m node after) node = get_prev m after /\
  get_next (list_insert_before m node after) node = after /\
  get_prev (list_insert_before m node after) after = node /\
  get_next (list_insert_before m node after) (get_prev m after) = node /\
  (forall x,
     x < node \/ node + 16 <= x ->
     x < after \/ after + 8 <= x ->
     x < get_prev m after + 8 \/ get_prev m after + 16 <= x ->
     list_insert_before m node after x = m x).
Proof. apply list_insert_before_cells. Qed.


Lemma list_insert_before_links_witness :
  get_prev (list_insert_before fresh_256 (BUF + 108) (BUF + 8)) (BUF + 108)
    = get_prev fresh_256 (BUF + 8) /\
  get_next (list_insert_before fresh_256 (BUF + 108) (BUF + 8)) (BUF + 108) = BUF + 8 /\
  get_prev (list_insert_before fresh_256 (BUF + 108) (BUF + 8)) (BUF + 8) = BUF + 108 /\
  get_next (list_insert_before fresh_256 (BUF + 108) (BUF + 8))
    (get_prev fresh_256 (BUF + 8)) = BUF + 108 /\
  (forall x,
     x < BUF + 108 \/ BUF + 108 + 16 <= x ->
     x < BUF + 8 \/ BUF + 8 + 8 <= x ->
     x < get_prev fresh_256 (BUF + 8) + 8 \/ get_prev fresh_256 (BUF + 8) + 16 <= x ->
     list_insert_before fresh_256 (BUF + 108) (BUF + 8) x = fresh_256 x).
Proof.
  apply list_insert_before_links.
  - split; by_eval.
  - split; by_eval.
  - right. by_eval.
  - left. by_eval.
  - left. by_eval.
Defined.

(** ** What a successful allocation changes *)

Lemma place_loop_found hd m size ret : forall fuel node,
  place_loop hd fuel m node size = Some ret -> ret <> NULL ->
  int_wrap (size + header_size) <= load_int m ret.
Proof.
  induction fuel as [|fuel IH]; intros node H Hr; cbn [place_loop] in H;
    destruct (node =? hd).
  - injection H as <-. contradiction.
  - discriminate H.
  - injection H as <-. contradiction.
  - destruct (load_int m (node - payload_off) >=? int_wrap (size + header_size)) eqn:E.
    + injection H as <-. rewrite Z.geb_leb in E. apply Z.leb_le in E. exact E.
    + apply (IH _ H Hr).
Qed.

Lemma load_int_range m a : - INT_MAX - 1 <= load_int m a <= INT_MAX.
Proof.
  unfold load_int, int_wrap, INT_MAX.
  pose proof (Z.mod_pos_bound (load_le 4 m a + 2147483648) 4294967296 ltac:(lia)). lia.
Qed.

Lemma load_int_ext m1 m2 a :
  (forall x, a <= x < a + 4 -> m1 x = m2 x) -> load_int m1 a = load_int m2 a.
Proof. intros H. unfold load_int. f_equal. apply load_le_ext. exact H. Qed.

Lemma get_prev_ext m1 m2 n :
  (forall x, n <= x < n + 8 -> m1 x = m2 x) -> get_prev m1 n = get_prev m2 n.
Proof.
  intros H. unfold_mem. apply load_le_ext. intros x Hx. apply H.
  simpl Z.of_nat in Hx. lia.
Qed.

Lemma get_next_ext m1 m2 n :
  (forall x, n + 8 <= x < n + 16 -> m1 x = m2 x) -> get_next m1 n = get_next m2 n.
Proof.
  intros H. unfold_mem. apply load_le_ext. intros x Hx. apply H.
  simpl Z.of_nat in Hx. lia.
Qed.

Lemma int_wrap_id x : -2147483648 <= x <= 2147483647 -> int_wrap x = x.
Proof. intros H. apply int_wrap_small. unfold INT_MAX. lia. Qed.

(** The split made by a successful [pool_malloc], stated on the cells it
    touches; [P] and [N] are the list neighbours of the found block. *)
Lemma pool_malloc_split hd fuel st size ret :
  let m := st_mem st in
  let need := round_up size in
  let nb := ret + payload_off + ptr_size * need in
  let P := get_prev m (ret + payload_off) in
  let N := get_next m (ret + payload_off) in
  0 < size <= INT_MAX - 27 ->
  need + header_size < pool_free_space st <= INT_MAX ->
  get_loc_to_place hd fuel m size = Some ret -> ret <> NULL ->
  0 <= ret -> nb + header_size <= 2 ^ 64 ->
  nb + header_size <= N \/ N + 8 <= nb ->
  nb + header_size <= P + 8 \/ P + 16 <= nb ->
  ret + 4 <= N \/ N + 8 <= ret ->
  ret + 4 <= P + 8 \/ P + 16 <= ret ->
  N <= P \/ P + 16 <= N ->
  exists st',
    pool_malloc hd fuel st size = Some (ret + payload_off, st') /\
    block_size st' ret = need /\
    block_size st' nb = block_size st ret - word_size - need /\
    size + 20 - need <= block_size st' nb /\
    get_prev (st_mem st') (nb + payload_off) = P /\
    get_next (st_mem st') (nb + payload_off) = N /\
    get_next (st_mem st') P = nb + payload_off /\
    get_prev (st_mem st') N = nb + payload_off /\
    pool_free_space st' = pool_free_space st - (need + word_size) /\
    pool_size st' = pool_size st /\
    (forall x,
       x < ret \/ ret + 4 <= x ->
       x < nb \/ nb + header_size <= x ->
       x < N \/ N + 8 <= x ->
       x < P + 8 \/ P + 16 <= x ->
       st_mem st' x = m x).
Proof.
  intros m need nb P N Hs Hf Hg Hr Hret Hnb S1 S2 S3 S4 S5.
  destruct (round_up_spec size) as (_ & Hb & Hm4); [unfold INT_MAX in *; lia|].
  fold need in Hb, Hm4. unfold word_size in Hb, Hm4.
  assert (Hn4 : 4 <= need).
  { apply Z.mod_divide in Hm4; [|lia]. destruct Hm4 as [q Hq]. lia. }
  clear Hm4.
  pose proof (place_loop_found _ _ _ _ _ _ Hg Hr) as Hsz.
  pose proof (load_int_range m ret) as Rsz.
  rewrite int_wrap_small in Hsz by (unfold header_size, INT_MAX in *; lia).
  destruct (pool_malloc_found hd fuel st size ret) as (st' & Hm & Hps & Hfs & Hmem);
    try assumption; try lia.
  { fold need. rewrite int_wrap_small by (unfold header_size, INT_MAX in *; lia). lia. }
  fold m need nb in Hmem. fold m in Hsz. fold need in Hfs.
  unfold header_size, word_size, payload_off, ptr_size, INT_MAX in *.
  rewrite (int_wrap_id (load_int m ret - 4)) in Hmem by lia.
  rewrite (int_wrap_id (load_int m ret - 4 - need)) in Hmem by lia.
  rewrite (int_wrap_id (pool_free_space st - need)) in Hfs by lia.
  rewrite int_wrap_id in Hfs by lia.
  set (m2 := store_int (store_int m nb (load_int m ret - 4 - need)) ret need) in *.
  assert (EP : get_prev m2 (ret + 8) = P) by (unfold m2; mem_rw; reflexivity).
  assert (EN : get_next m2 (ret + 8) = N) by (unfold m2; mem_rw; reflexivity).
  pose proof (get_prev_range m (ret + 8)) as RP. fold P in RP.
  pose proof (get_next_range m (ret + 8)) as RN. fold N in RN.
  destruct (list_replace_cells m2 (ret + 8) (nb + 8)) as (L1 & L2 & L3 & L4 & LF);
    rewrite ?EP, ?EN; try lia.
  rewrite EP, EN in *.
  exists st'. unfold block_size. rewrite Hmem.
  split; [exact Hm|].
  split.
  { rewrite (load_int_ext _ m2) by (intros x Hx; apply LF; lia).
    unfold m2. mem_rw. reflexivity. }
  split.
  { rewrite (load_int_ext _ m2) by (intros x Hx; apply LF; lia).
    unfold m2. mem_rw. reflexivity. }
  split.
  { rewrite (load_int_ext _ m2) by (intros x Hx; apply LF; lia).
    unfold m2. mem_rw. lia. }
  split; [exact L1|]. split; [exact L2|]. split; [exact L3|]. split; [exact L4|].
  split; [lia|]. split; [exact Hps|].
  intros x X1 X2 X3 X4. rewrite LF by lia. unfold m2. frame_rw. reflexivity.
Qed.

(** X8: a successful [pool_malloc] on a block [ret] that the search found,
    when the header it writes for the remainder and the size cell of [ret]
    are apart from the two neighbour cells of the list: it returns the
    payload of [ret], sets [ret]'s size to the rounded request, gives the
    remainder (placed [ptr_size] times the rounded request past the payload)
    the old size less [word_size] and the rounded request, which is at least
    17, links the remainder between [ret]'s neighbours, lowers the counter by
    the rounded request plus [word_size], and changes no byte outside the
    size cell of [ret], the remainder's header and the two neighbour
    cells. *)
Theorem pool_malloc_effect hd fuel st size ret :
  let m := st_mem st in
  let need := round_up size in
  let nb := ret + payload_off + ptr_size * need in
  let P := get_prev m (ret + payload_off) in
  let N := get_next m (ret + payload_off) in
  0 < size <= INT_MAX - 27 ->
  need + header_size < pool_free_space st <= INT_MAX ->
  get_loc_to_place hd fuel m size = Some ret -> ret <> NULL ->
  0 <= ret -> nb + header_size <= 2 ^ 64 ->
  nb + header_size <= N \/ N + 8 <= nb ->
  nb + header_size <= P + 8 \/ P + 16 <= nb ->
  ret + 4 <= N \/ N + 8 <= ret ->
  ret + 4 <= P + 8 \/ P + 16 <= ret ->
  N <= P \/ P + 16 <= N ->
  exists st',
    pool_malloc hd fuel st size = Some (ret + payload_off, st') /\
    block_size st' ret = need /\
    block_size st' nb = block_size st ret - word_size - need /\
    17 <= block_size st' nb /\
    get_prev (st_mem st') (nb + payload_off) = P /\
    get_next (st_mem st') (nb + payload_off) = N /\
    get_next (st_mem st') P = nb + payload_off /\
    get_prev (st_mem st') N = nb + payload_off /\
    pool_free_space st' = pool_free_space st - (need + word_size) /\
    pool_size st' = pool_size st /\
    (forall x,
       x < ret \/ ret + 4 <= x ->
       x < nb \/ nb + header_size <= x ->
       x < N \/ N + 8 <= x ->
       x < P + 8 \/ P + 16 <= x ->
       st_mem st' x = m x).
Proof.
  intros m need nb P N Hs Hf Hg Hr Hret Hnb S1 S2 S3 S4 S5.
  destruct (pool_malloc_split hd fuel st size ret Hs Hf Hg Hr Hret Hnb S1 S2 S3 S4 S5)
    as (st' & H1 & H2 & H3 & H4 & H5 & H6 & H7 & H8 & H9 & H10 & H11).
  destruct (round_up_spec size) as (_ & Hb & _); [unfold INT_MAX in *; lia|].
  unfold word_size in Hb. subst m need nb P N.
  exists st'. repeat (split; [assumption|]). split; [lia|].
  repeat (split; [assumption|]). exact H11.
Qed.

Lemma pool_malloc_effect_witness :
  exists st',
    pool_malloc HD 4 (state_after 256 []) 32 = Some (BUF + payload_off, st') /\
    block_size st' BUF = round_up 32 /\
    block_size st' (BUF + payload_off + ptr_size * round_up 32)
      = block_size (state_after 256 []) BUF - word_size - round_up 32 /\
    pool_free_space st'
      = pool_free_space (state_after 256 []) - (round_up 32 + word_size).
Proof.
  destruct (pool_malloc_effect HD 4 (state_after 256 []) 32 BUF)
    as (st' & H1 & H2 & H3 & _ & _ & _ & _ & _ & H9 & _).
  - unfold INT_MAX. lia.
  - split; by_eval.
  - by_eval.
  - by_eval.
  - by_eval.
  - by_eval.
  - left. by_eval.
  - left. by_eval.
  - left. by_eval.
  - left. by_eval.
  - left. by_eval.
  - exists st'. repeat split; assumption.
Defined.

(** ** Resolving loads through a chain of stores *)

Lemma get_prev_set_prev_eq m n n' v :
  n = n' -> 0 <= v < 2 ^ 64 -> get_prev (set_prev m n' v) n = v.
Proof. intros -> H. apply get_prev_set_prev_same. exact H. Qed.

Lemma get_next_set_next_eq m n n' v :
  n = n' -> 0 <= v < 2 ^ 64 -> get_next (set_next m n' v) n = v.
Proof. intros -> H. apply get_next_set_next_same. exact H. Qed.

Lemma load_int_store_int_eq m a a' v :
  a = a' -> -2147483648 <= v <= 2147483647 -> load_int (store_int m a' v) a = v.
Proof. intros -> H. apply load_store_int_id. exact H. Qed.

(** One load of a stored-to memory, wherever in the goal the side
    conditions can be settled. *)
Ltac mem1 :=
  match goal with
  | |- context [get_prev (set_prev ?m ?n' ?v) ?n] =>
      first [ rewrite (get_prev_set_prev_eq m n n' v) by lia
            | rewrite (get_prev_set_prev_other m n n' v) by lia ]
  | |- context [get_next (set_next ?m ?n' ?v) ?n] =>
      first [ rewrite (get_next_set_next_eq m n n' v) by lia
            | rewrite (get_next_set_next_other m n n' v) by lia ]
  | |- context [load_int (store_int ?m ?a' ?v) ?a] =>
      first [ rewrite (load_int_store_int_eq m a a' v) by lia
            | rewrite (load_int_store_int_other m a a' v) by lia ]
  | |- context [get_prev (set_next ?m ?n' ?v) ?n] =>
      rewrite (get_prev_set_next_other m n n' v) by lia
  | |- context [get_next (set_prev ?m ?n' ?v) ?n] =>
      rewrite (get_next_set_prev_other m n n' v) by lia
  | |- context [get_prev (store_int ?m ?a ?v) ?n] =>
      rewrite (get_prev_store_int m n a v) by lia
  | |- context [get_next (store_int ?m ?a ?v) ?n] =>
      rewrite (get_next_store_int m n a v) by lia
  | |- context [load_int (set_prev ?m ?n ?v) ?a] =>
      rewrite (load_int_set_prev m a n v) by lia
  | |- context [load_int (set_next ?m ?n ?v) ?a] =>
      rewrite (load_int_set_next m a n v) by lia
  end.

Ltac mem := repeat mem1.

Lemma list_del_links m node :
  get_next m node <= get_prev m node \/ get_prev m node + 16 <= get_next m node ->
  get_prev (list_del m node) (get_next m node) = get_prev m node /\
  get_next (list_del m node) (get_prev m node) = get_next m node /\
  (forall x,
     x < get_next m node \/ get_next m node + 8 <= x ->
     x < get_prev m node + 8 \/ get_prev m node + 16 <= x ->
     list_del m node x = m x).
Proof.
  intros H.
  pose proof (get_prev_range m node) as RP. pose proof (get_next_range m node) as RN.
  unfold list_del.
  set (P := get_prev m node) in *. set (N := get_next m node) in *.
  split; [mem; reflexivity|]. split; [mem; reflexivity|].
  intros x X1 X2. frame_rw. reflexivity.
Qed.

(** ** Coalescing *)

Lemma block_try_merge_merges hd st node1 node2 :
  let m := st_mem st in
  let n1 := node1 - payload_off in
  let n2 := node2 - payload_off in
  let P := get_prev m node2 in
  let N := get_next m node2 in
  node1 <> hd -> node2 <> hd ->
  n1 + payload_off + ptr_size * block_size st n1 = n2 ->
  N <= P \/ P + 16 <= N ->
  n1 + 4 <= N \/ N + 8 <= n1 ->
  n1 + 4 <= P + 8 \/ P + 16 <= n1 ->
  n2 + 4 <= N \/ N + 8 <= n2 ->
  n2 + 4 <= P + 8 \/ P + 16 <= n2 ->
  - INT_MAX - 1 <= word_size + block_size st n2 <= INT_MAX ->
  - INT_MAX - 1 <= block_size st n1 + word_size + block_size st n2 <= INT_MAX ->
  - INT_MAX - 1 <= pool_free_space st + word_size <= INT_MAX ->
  let st' := block_try_merge hd st node1 node2 in
  block_size st' n1 = block_size st n1 + word_size + block_size st n2 /\
  pool_free_space st' = pool_free_space st + word_size /\
  pool_size st' = pool_size st /\
  get_next (st_mem st') P = N /\
  get_prev (st_mem st') N = P /\
  (forall x,
     x < n1 \/ n1 + 4 <= x ->
     x < N \/ N + 8 <= x ->
     x < P + 8 \/ P + 16 <= x ->
     st_mem st' x = m x).
Proof.
  intros m n1 n2 P N H1 H2 Hadj S1 S2 S3 S4 S5 R1 R2 R3 st'.
  unfold st', block_try_merge.
  apply Z.eqb_neq in H1, H2. rewrite H1, H2. cbn [orb].
  fold m n1 n2. unfold block_size in Hadj, R1, R2 |- *. fold m in Hadj, R1, R2.
  rewrite Hadj, Z.eqb_refl. cbn [st_mem pool_size pool_free_space].
  destruct (list_del_links m node2 S1) as (D1 & D2 & DF). fold P N in D1, D2, DF.
  pose proof (get_prev_range m node2) as RP. fold P in RP.
  pose proof (get_next_range m node2) as RN. fold N in RN.
  assert (E1 : load_int (list_del m node2) n1 = load_int m n1)
    by (apply load_int_ext; intros x Hx; apply DF; lia).
  assert (E2 : load_int (list_del m node2) n2 = load_int m n2)
    by (apply load_int_ext; intros x Hx; apply DF; lia).
  rewrite E1, E2.
  unfold word_size, INT_MAX in *.
  rewrite (int_wrap_id (4 + load_int m n2)) by lia.
  rewrite (int_wrap_id (load_int m n1 + (4 + load_int m n2))) by lia.
  rewrite int_wrap_id by lia.
  change (st_mem st) with m.
  split; [mem; lia|]. split; [reflexivity|]. split; [reflexivity|].
  split.
  { rewrite (get_next_ext _ (list_del m node2)); [exact D2|].
    intros x Hx. apply store_int_out. lia. }
  split.
  { rewrite (get_prev_ext _ (list_del m node2)); [exact D1|].
    intros x Hx. apply store_int_out. lia. }
  intros x X1 X2 X3. rewrite store_int_out by lia. apply DF; lia.
Qed.

(** X9: [block_try_merge(node1, node2)] leaves the state alone when either
    node is the sentinel or the first block does not end where the second
    starts (its end being [ptr_size] times its size past its payload).
    Otherwise, when the size cells of both blocks are apart from the two list
    cells that unlinking [node2] writes, the first block's size grows by
    [word_size] plus the second's size, the counter grows by [word_size],
    the neighbours of [node2] point to each other, and no other byte
    changes. *)
Theorem block_try_merge_effect hd st node1 node2 :
  let m := st_mem st in
  let n1 := node1 - payload_off in
  let n2 := node2 - payload_off in
  let P := get_prev m node2 in
  let N := get_next m node2 in
  (node1 = hd \/ node2 = hd \/
   n1 + payload_off + ptr_size * block_size st n1 <> n2 ->
   block_try_merge hd st node1 node2 = st) /\
  (node1 <> hd -> node2 <> hd ->
   n1 + payload_off + ptr_size * block_size st n1 = n2 ->
   N <= P \/ P + 16 <= N ->
   n1 + 4 <= N \/ N + 8 <= n1 ->
   n1 + 4 <= P + 8 \/ P + 16 <= n1 ->
   n2 + 4 <= N \/ N + 8 <= n2 ->
   n2 + 4 <= P + 8 \/ P + 16 <= n2 ->
   - INT_MAX - 1 <= word_size + block_size st n2 <= INT_MAX ->
   - INT_MAX - 1 <= block_size st n1 + word_size + block_size st n2 <= INT_MAX ->
   - INT_MAX - 1 <= pool_free_space st + word_size <= INT_MAX ->
   let st' := block_try_merge hd st node1 node2 in
   block_size st' n1 = block_size st n1 + word_size + block_size st n2 /\
   pool_free_space st' = pool_free_space st + word_size /\
   pool_size st' = pool_size st /\
   get_next (st_mem st') P = N /\
   get_prev (st_mem st') N = P /\
   (forall x,
      x < n1 \/ n1 + 4 <= x ->
      x < N \/ N + 8 <= x ->
      x < P + 8 \/ P + 16 <= x ->
      st_mem st' x = m x)).
Proof.
  intros m n1 n2 P N. split.
  - intros H. unfold block_try_merge.
    destruct (node1 =? hd) eqn:E1; [reflexivity|].
    destruct (node2 =? hd) eqn:E2; [reflexivity|].
    cbn [orb]. apply Z.eqb_neq in E1, E2.
    destruct H as [H|[H|H]]; [contradiction|contradiction|].
    unfold block_size in H. fold m n1 n2.
    destruct (n1 + payload_off + ptr_size * load_int m n1 =? n2) eqn:E3;
      [apply Z.eqb_eq in E3; contradiction | reflexivity].
  - apply block_try_merge_merges.
Qed.

Lemma block_try_merge_effect_witness :
  block_size (block_try_merge HD linked_before_merge (BUF + 8) (BUF + 80)) BUF
    = block_size linked_before_merge BUF + word_size
      + block_size linked_before_merge (BUF + 72) /\
  pool_free_space (block_try_merge HD linked_before_merge (BUF + 8) (BUF + 80))
    = pool_free_space linked_before_merge + word_size.
Proof.
  destruct (block_try_merge_effect HD linked_before_merge (BUF + 8) (BUF + 80))
    as (_ & H).
  destruct H as (H1 & H2 & _).
  - by_eval.
  - by_eval.
  - by_eval.
  - right. by_eval.
  - left. by_eval.
  - left. by_eval.
  - left. by_eval.
  - right. by_eval.
  - split; by_eval.
  - split; by_eval.
  - split; by_eval.
  - split; assumption.
Defined.

(** ** Allocation and release on a fresh arena *)

(** The cells of the sentinel and of the first block after [pool_init] on an
    empty list. *)
Lemma pool_init_fresh hd st addr size :
  list_empty hd st ->
  0 < addr -> 0 <= hd -> header_size < size <= INT_MAX ->
  addr + header_size <= hd \/ hd + 16 <= addr ->
  hd + 16 <= 2 ^ 64 -> addr + header_size <= 2 ^ 64 ->
  let st1 := snd (pool_init hd st addr size) in
  fst (pool_init hd st addr size) = true /\
  pool_size st1 = size - word_size /\
  pool_free_space st1 = size - word_size /\
  block_size st1 addr = size - word_size /\
  get_next (st_mem st1) hd = addr + payload_off /\
  get_prev (st_mem st1) hd = addr + payload_off /\
  get_next (st_mem st1) (addr + payload_off) = hd /\
  get_prev (st_mem st1) (addr + payload_off) = hd.
Proof.
  intros [Hn Hp] Ha Hh Hs Hsep H64 Ha64 st1. unfold st1.
  rewrite pool_init_mem by (unfold NULL, header_size in *; lia).
  cbn [fst snd pool_size pool_free_space st_mem]. unfold block_size. cbn [st_mem].
  unfold header_size, word_size, payload_off, INT_MAX in *.
  rewrite int_wrap_id by lia.
  unfold list_add.
  assert (E : get_next (store_int (st_mem st) addr (size - 4)) hd = hd)
    by (mem; exact Hn).
  rewrite E.
  assert (H64' : 2 ^ 64 = 18446744073709551616) by reflexivity.
  repeat split; mem; lia.
Qed.

Lemma place_loop_head hd fuel m node size :
  node <> hd ->
  int_wrap (size + header_size) <= load_int m (node - payload_off) ->
  place_loop hd (S fuel) m node size = Some (node - payload_off).
Proof.
  intros Hn Hs. cbn [place_loop]. apply Z.eqb_neq in Hn. rewrite Hn.
  rewrite Z.geb_leb. apply Z.leb_le in Hs. rewrite Hs. reflexivity.
Qed.

Lemma alloc_release_fresh hd st addr cap size fuel :
  list_empty hd st ->
  0 < addr -> 0 <= hd -> hd + 16 <= 2 ^ 64 ->
  0 < size <= INT_MAX - 27 ->
  round_up size + header_size < cap - word_size -> cap <= INT_MAX ->
  addr + payload_off + ptr_size * round_up size + header_size <= hd \/ hd + 16 <= addr ->
  addr + payload_off + ptr_size * round_up size + header_size <= 2 ^ 64 ->
  exists st2 st3,
    pool_malloc hd (S fuel) (snd (pool_init hd st addr cap)) size
      = Some (addr + payload_off, st2) /\
    pool_free hd fuel st2 (addr + payload_off) = Some st3 /\
    sole_node hd st3 addr /\
    block_size st3 addr = cap - word_size /\
    pool_free_space st3 = cap - word_size /\
    pool_size st3 = cap - word_size.
Proof.
  intros He Ha Hh H64 Hs Hadm Hcap Hsep Hend.
  destruct (round_up_spec size) as (_ & Hb & Hm4); [unfold INT_MAX in *; lia|].
  set (need := round_up size) in *.
  assert (Hn4 : 4 <= need).
  { unfold word_size in *. apply Z.mod_divide in Hm4; [|lia].
    destruct Hm4 as [q Hq]. lia. }
  clear Hm4.
  unfold header_size, word_size, payload_off, ptr_size, INT_MAX in *.
  assert (H64' : 2 ^ 64 = 18446744073709551616) by reflexivity.
  destruct (pool_init_fresh hd st addr cap) as (_ & I1 & I2 & I3 & I4 & I5 & I6 & I7);
    try assumption;
    try (unfold header_size, INT_MAX; lia).
  set (st1 := snd (pool_init hd st addr cap)) in *.
  unfold header_size, word_size, payload_off, block_size in I1, I2, I3, I4, I5, I6, I7.
  (* the search finds the only block *)
  assert (G : get_loc_to_place hd (S fuel) (st_mem st1) size = Some addr).
  { unfold get_loc_to_place. rewrite I4.
    replace addr with (addr + 8 - payload_off) at 2 by (unfold payload_off; lia).
    apply place_loop_head; [lia|].
    unfold payload_off, header_size. replace (addr + 8 - 8) with addr by lia.
    rewrite I3, int_wrap_id by lia. lia. }
  destruct (pool_malloc_split hd (S fuel) st1 size addr)
    as (st2 & M1 & M2 & M3 & _ & M5 & M6 & M7 & M8 & M9 & M10 & MF);
    fold need;
    unfold header_size, word_size, payload_off, ptr_size, INT_MAX, NULL, block_size;
    rewrite ?I6, ?I7, ?I2; try assumption; try lia.
  fold need in M2, M3, M5, M6, M7, M8, M9, MF.
  unfold header_size, word_size, payload_off, ptr_size, block_size in *.
  rewrite ?I6, ?I7, ?I3, ?I2, ?I1 in *.
  set (nb := addr + 8 + 8 * need) in *.
  set (m2 := st_mem st2) in *.
  exists st2.
  (* pool_free: the list is singular *)
  unfold pool_free, payload_off. fold m2.
  replace (addr + 8 - 8 + 8) with (addr + 8) by lia.
  replace (addr + 8 - 8) with addr by lia.
  rewrite M2, M9.
  rewrite (int_wrap_id (cap - 4 - (need + 4) + need)) by lia.
  unfold get_loc_to_free, list_is_singular. rewrite M7, M8, Z.eqb_refl.
  replace (nb + 8 =? hd) with false by (symmetry; apply Z.eqb_neq; lia).
  cbn [negb andb st_mem].
  destruct (list_insert_before_cells m2 (addr + 8) (nb + 8))
    as (L1 & L2 & L3 & L4 & LF); rewrite ?M5; try lia.
  rewrite M5 in *.
  set (m3 := list_insert_before m2 (addr + 8) (nb + 8)) in *.
  rewrite L2.
  eexists. split; [exact M1|]. split; [reflexivity|].
  pose (st3 := mkState m3 (pool_size st2) (cap - 4 - (need + 4) + need)).
  assert (Z3a : load_int m3 addr = need)
    by (rewrite (load_int_ext m3 m2) by (intros x Hx; apply LF; lia); exact M2).
  assert (Z3b : load_int m3 nb = cap - 4 - 4 - need)
    by (rewrite (load_int_ext m3 m2) by (intros x Hx; apply LF; lia); exact M3).
  assert (N3 : get_next m3 (nb + 8) = hd)
    by (rewrite (get_next_ext m3 m2) by (intros x Hx; apply LF; lia); exact M6).
  assert (P3 : get_prev m3 hd = nb + 8)
    by (rewrite (get_prev_ext m3 m2) by (intros x Hx; apply LF; lia); exact M8).
  destruct (block_try_merge_merges hd st3 (addr + 8) (nb + 8))
    as (B1 & B2 & B3 & B4 & B5 & BF);
    unfold st3, block_size, payload_off, ptr_size, word_size, INT_MAX;
    cbn [st_mem pool_free_space pool_size];
    rewrite ?N3, ?L3;
    replace (addr + 8 - 8) with addr by lia;
    replace (nb + 8 - 8) with nb by lia;
    rewrite ?Z3a, ?Z3b; try lia.
  unfold st3, block_size, payload_off, ptr_size, word_size in B1, B2, B3, B4, B5, BF.
  cbn [st_mem pool_free_space pool_size] in B1, B2, B3, B4, B5, BF.
  rewrite ?N3, ?L3 in B4, B5, BF.
  replace (addr + 8 - 8) with addr in B1, BF by lia.
  replace (nb + 8 - 8) with nb in B1 by lia.
  rewrite Z3a, Z3b in B1.
  unfold st3 in *. clear st3.
  set (st4 := block_try_merge hd _ (addr + 8) (nb + 8)) in *.
  assert (P4 : get_prev (st_mem st4) (addr + 8) = hd).
  { rewrite (get_prev_ext _ m3) by (intros x Hx; apply BF; lia). exact L1. }
  assert (N4 : get_next (st_mem st4) hd = addr + 8).
  { rewrite (get_next_ext _ m3) by (intros x Hx; apply BF; lia). exact L4. }
  rewrite P4.
  assert (E4 : block_try_merge hd st4 hd (addr + 8) = st4)
    by (unfold block_try_merge; rewrite Z.eqb_refl; reflexivity).
  rewrite E4.
  unfold sole_node, free_list_is, block_size. cbn [list_nodes].
  unfold payload_off.
  rewrite N4, B4, B5, P4, B1, B2, B3, M10.
  repeat split; lia.
Qed.

(** X10: on an empty list, [pool_init(addr, cap)], one [pool_malloc(size)]
    that the arena admits and the [pool_free] of the pointer it returned
    bring the pool back to where [pool_init] left it: the block at [addr] is
    the only free block, its size and both counters are [cap - word_size].
    The blocks written (up to the remainder's header, [ptr_size] times the
    rounded size past the payload) must be apart from the sentinel. *)
Theorem alloc_release_round_trip hd st addr cap size fuel :
  list_empty hd st ->
  0 < addr -> 0 <= hd -> hd + 16 <= 2 ^ 64 ->
  0 < size <= INT_MAX - 27 ->
  round_up size + header_size < cap - word_size -> cap <= INT_MAX ->
  addr + payload_off + ptr_size * round_up size + header_size <= hd \/ hd + 16 <= addr ->
  addr + payload_off + ptr_size * round_up size + header_size <= 2 ^ 64 ->
  exists st2 st3,
    pool_malloc hd (S fuel) (snd (pool_init hd st addr cap)) size
      = Some (addr + payload_off, st2) /\
    pool_free hd fuel st2 (addr + payload_off) = Some st3 /\
    sole_node hd st3 addr /\
    block_size st3 addr = cap - word_size /\
    pool_free_space st3 = cap - word_size /\
    pool_size st3 = cap - word_size.
Proof. apply alloc_release_fresh. Qed.

Lemma alloc_release_round_trip_witness :
  exists st2 st3,
    pool_malloc HD 1 (snd (pool_init HD (init_state HD zeros) BUF 256)) 30
      = Some (BUF + payload_off, st2) /\
    pool_free HD 0 st2 (BUF + payload_off) = Some st3 /\
    sole_node HD st3 BUF /\
    block_size st3 BUF = 256 - word_size /\
    pool_free_space st3 = 256 - word_size /\
    pool_size st3 = 256 - word_size.
Proof.
  apply alloc_release_round_trip.
  - split; by_eval.
  - by_eval.
  - by_eval.
  - by_eval.
  - split; by_eval.
  - by_eval.
  - by_eval.
  - left. by_eval.
  - by_eval.
Defined.

(** ** Well-linked lists *)

Lemma linked_list_nodes m hd : forall l prev node,
  linked m hd prev node l -> list_nodes m hd node l.
Proof.
  induction l as [|b l IH]; intros prev node H; cbn [linked list_nodes] in *.
  - apply H.
  - destruct H as (H1 & H2 & _ & H4). repeat split; try assumption.
    apply (IH _ _ H4).
Qed.

(** A memory that agrees with [m] on the link cells of the nodes of [l] and
    on the sentinel's [prev] cell links [l] the same way. *)
Lemma linked_frame m m' hd : forall l prev node,
  (forall b, In b l -> forall x, b + 8 <= x < b + 24 -> m' x = m x) ->
  (forall x, hd <= x < hd + 8 -> m' x = m x) ->
  linked m hd prev node l -> linked m' hd prev node l.
Proof.
  induction l as [|b l IH]; intros prev node Hc Hh H; cbn [linked] in *.
  - destruct H as [H1 H2]. split; [exact H1|].
    rewrite (get_prev_ext m' m) by exact Hh. exact H2.
  - destruct H as (H1 & H2 & H3 & H4). subst node. unfold payload_off in *.
    split; [reflexivity|]. split; [exact H2|]. split.
    + rewrite (get_prev_ext m' m); [exact H3|].
      intros x Hx. apply (Hc b); [left; reflexivity | lia].
    + rewrite (get_next_ext m' m).
      * apply IH; [|exact Hh|exact H4].
        intros b' Hb'. apply Hc. right. exact Hb'.
      * intros x Hx. apply (Hc b); [left; reflexivity | lia].
Qed.

Lemma sum_sizes_frame st st' : forall l,
  (forall b, In b l -> forall x, b <= x < b + 4 -> st_mem st' x = st_mem st x) ->
  sum_sizes st' l = sum_sizes st l.
Proof.
  induction l as [|b l IH]; intros H; cbn [sum_sizes fold_right]; [reflexivity|].
  fold (sum_sizes st' l). fold (sum_sizes st l). rewrite IH.
  - unfold block_size. rewrite (load_int_ext (st_mem st') (st_mem st)); [reflexivity|].
    apply H. left. reflexivity.
  - intros b' Hb'. apply H. right. exact Hb'.
Qed.


(** Split the conjunctions of a closed goal and evaluate each part. *)
Ltac conj_eval := repeat match goal with |- _ /\ _ => split end; by_eval.
(** ** Bootstrap on a list that is not empty *)

Lemma pool_init_front hd st addr size l :
  well_linked hd (st_mem st) l ->
  0 < addr -> header_size < size <= INT_MAX ->
  0 <= hd -> hd + 16 <= 2 ^ 64 ->
  off_sentinel hd addr -> Forall (off_sentinel hd) l ->
  Forall (apart addr) l -> separated l ->
  let st1 := snd (pool_init hd st addr size) in
  fst (pool_init hd st addr size) = true /\
  well_linked hd (st_mem st1) (addr :: l) /\
  block_size st1 addr = size - word_size /\
  (forall b, In b l -> block_size st1 b = block_size st b) /\
  pool_free_space st1 = size - word_size /\
  pool_size st1 = size - word_size.
Proof.
  intros Hl Ha Hs Hh H64 (Oa1 & Oa2 & Oa3) Ho Hap Hsep st1. unfold st1.
  rewrite pool_init_mem by (unfold NULL, header_size in *; lia).
  cbn [fst snd pool_size pool_free_space st_mem]. unfold block_size. cbn [st_mem].
  rewrite Forall_forall in Ho, Hap.
  unfold apart, off_sentinel, header_size, word_size, payload_off, INT_MAX in *.
  rewrite int_wrap_id by lia.
  assert (H64' : 2 ^ 64 = 18446744073709551616) by reflexivity.
  set (m := st_mem st) in *.
  unfold list_add.
  assert (E : get_next (store_int m addr (size - 4)) hd = get_next m hd)
    by (mem; reflexivity).
  rewrite E.
  pose proof (get_next_range m hd) as RN.
  destruct l as [|b1 l1].
  - destruct Hl as [Hn Hp]. rewrite Hn.
    split; [reflexivity|]. split.
    { unfold well_linked. cbn [linked]. unfold payload_off.
      split; [mem; lia|]. split; [mem; lia|]. split; [mem; lia|].
      split; mem; lia. }
    split; [mem; reflexivity|]. split; [intros b []|]. split; reflexivity.
  - destruct Hl as (Hn & Hne & Hp & Hl). unfold payload_off in *.
    rewrite Hn in *.
    destruct Hsep as [Hap1 Hsep1]. rewrite Forall_forall in Hap1.
    unfold apart, header_size in Hap1.
    pose proof (Ho b1 (or_introl eq_refl)) as Ob1.
    pose proof (Hap b1 (or_introl eq_refl)) as Ab1.
    set (m4 := set_next (set_prev (set_next (set_prev
                 (store_int m addr (size - 4)) (b1 + 8) (addr + 8))
                 (addr + 8) (b1 + 8)) (addr + 8) hd) hd (addr + 8)).
    assert (F : forall x,
               x < addr \/ addr + 24 <= x ->
               x < b1 + 8 \/ b1 + 16 <= x ->
               x < hd + 8 \/ hd + 16 <= x -> m4 x = m x).
    { intros x X1 X2 X3. unfold m4. frame_rw. reflexivity. }
    split; [reflexivity|]. split.
    { unfold well_linked. cbn [linked]. unfold payload_off.
      split; [unfold m4; mem; lia|]. split; [unfold m4; mem; lia|].
      split; [unfold m4; mem; lia|].
      replace (get_next m4 hd) with (addr + 8) by (unfold m4; mem; lia).
      replace (get_next m4 (addr + 8)) with (b1 + 8) by (unfold m4; mem; lia).
      split; [reflexivity|]. split; [exact Hne|].
      split; [unfold m4; mem; lia|].
      replace (get_next m4 (b1 + 8)) with (get_next m (b1 + 8))
        by (unfold m4; mem; reflexivity).
      apply (linked_frame m m4); [| |exact Hl].
      - intros b Hb x Hx. apply F.
        + pose proof (Hap b (or_intror Hb)). lia.
        + pose proof (Hap1 b Hb). lia.
        + pose proof (Ho b (or_intror Hb)). lia.
      - intros x Hx. apply F; lia. }
    split; [unfold m4; mem; reflexivity|]. split; [|split; reflexivity].
    intros b [<-|Hb]; apply load_int_ext; intros x Hx; apply F.
    + lia.
    + lia.
    + lia.
    + pose proof (Hap b (or_intror Hb)). lia.
    + pose proof (Hap1 b Hb). lia.
    + pose proof (Ho b (or_intror Hb)). lia.
Qed.

(** X11: [pool_init] on a well-linked free list [l] whose blocks overlap
    neither each other, the sentinel, nor the new header: it returns true,
    the list becomes the new block followed by [l], the blocks of [l] keep
    their sizes, and both counters are set to [size - word_size] all the
    same. *)
Theorem pool_init_prepends hd st addr size l :
  well_linked hd (st_mem st) l ->
  0 < addr -> header_size < size <= INT_MAX ->
  0 <= hd -> hd + 16 <= 2 ^ 64 ->
  off_sentinel hd addr -> Forall (off_sentinel hd) l ->
  Forall (apart addr) l -> separated l ->
  let st1 := snd (pool_init hd st addr size) in
  fst (pool_init hd st addr size) = true /\
  well_linked hd (st_mem st1) (addr :: l) /\
  block_size st1 addr = size - word_size /\
  (forall b, In b l -> block_size st1 b = block_size st b) /\
  pool_free_space st1 = size - word_size /\
  pool_size st1 = size - word_size.
Proof. apply pool_init_front. Qed.

Lemma pool_init_prepends_witness :
  fst (pool_init HD (state_after 256 []) (BUF + 1024) 128) = true /\
  well_linked HD (st_mem (snd (pool_init HD (state_after 256 []) (BUF + 1024) 128)))
    [BUF + 1024; BUF] /\
  block_size (snd (pool_init HD (state_after 256 []) (BUF + 1024) 128)) (BUF + 1024)
    = 128 - word_size /\
  (forall b, In b [BUF] ->
     block_size (snd (pool_init HD (state_after 256 []) (BUF + 1024) 128)) b
       = block_size (state_after 256 []) b) /\
  pool_free_space (snd (pool_init HD (state_after 256 []) (BUF + 1024) 128))
    = 128 - word_size /\
  pool_size (snd (pool_init HD (state_after 256 []) (BUF + 1024) 128))
    = 128 - word_size.
Proof.
  apply pool_init_prepends.
  - unfold well_linked. cbn [linked]. conj_eval.
  - by_eval.
  - split; by_eval.
  - by_eval.
  - by_eval.
  - split; [by_eval|]. split; [by_eval|]. left. by_eval.
  - constructor; [|constructor].
    split; [by_eval|]. split; [by_eval|]. left. by_eval.
  - constructor; [|constructor]. right. by_eval.
  - cbn [separated]. split; [constructor | exact I].
Defined.

(** ** A block inside a well-linked list *)

Lemma pred_node_cases : forall l1 prev,
  (l1 = [] /\ pred_node prev l1 = prev) \/
  (exists z, In z l1 /\ pred_node prev l1 = z + payload_off).
Proof.
  induction l1 as [|a l1 IH]; intros prev.
  - left. split; reflexivity.
  - right. cbn [pred_node fold_left]. fold (pred_node (a + payload_off) l1).
    destruct (IH (a + payload_off)) as [[-> E]|(z & Hz & E)].
    + exists a. split; [left; reflexivity | exact E].
    + exists z. split; [right; exact Hz | exact E].
Qed.

Lemma linked_middle m hd b l2 : forall l1 prev node,
  linked m hd prev node (l1 ++ b :: l2) ->
  b + payload_off <> hd /\
  get_prev m (b + payload_off) = pred_node prev l1 /\
  get_next m (b + payload_off) = succ_node hd l2 /\
  linked m hd (b + payload_off) (succ_node hd l2) l2.
Proof.
  induction l1 as [|a l1 IH]; intros prev node H.
  - cbn [app linked] in H. destruct H as (H1 & H2 & H3 & H4). subst node.
    split; [exact H2|]. split; [exact H3|].
    assert (E : get_next m (b + payload_off) = succ_node hd l2).
    { destruct l2 as [|c l2]; cbn [linked succ_node] in *; apply H4. }
    split; [exact E|]. rewrite <- E. exact H4.
  - cbn [app linked] in H. destruct H as (H1 & H2 & H3 & H4).
    cbn [pred_node fold_left]. fold (pred_node (a + payload_off) l1).
    subst node. apply (IH _ _ H4).
Qed.

Lemma separated_app_l : forall l1 l2 z,
  separated (l1 ++ l2) -> In z l1 -> Forall (apart z) l2.
Proof.
  induction l1 as [|a l1 IH]; intros l2 z Hs Hz; [destruct Hz|].
  cbn [app separated] in Hs. destruct Hs as [Ha Hs].
  destruct Hz as [<-|Hz].
  - apply Forall_app in Ha. apply Ha.
  - apply (IH _ _ Hs Hz).
Qed.

Lemma separated_app_r : forall l1 l2, separated (l1 ++ l2) -> separated l2.
Proof.
  induction l1 as [|a l1 IH]; intros l2 Hs; [exact Hs|].
  cbn [app separated] in Hs. apply IH. apply Hs.
Qed.

Section ReplaceInList.

(** [m'] is [m] after the block [b] of a well-linked list was replaced by
    [nb]: the links around [nb] are those around [b], and nothing else
    changed but the size cell of [b] and the header of [nb]. *)
Variables (m m' : mem) (hd b nb P N : Z) (l2 : list Z).

Hypothesis HP : get_prev m' (nb + payload_off) = P.
Hypothesis HN : get_next m' (nb + payload_off) = N.
Hypothesis HPn : get_next m' P = nb + payload_off.
Hypothesis HNp : get_prev m' N = nb + payload_off.
Hypothesis HF : forall x,
  x < b \/ b + 4 <= x -> x < nb \/ nb + header_size <= x ->
  x < N \/ N + 8 <= x -> x < P + 8 \/ P + 16 <= x -> m' x = m x.
Hypothesis EN : N = succ_node hd l2.
Hypothesis Ob : off_sentinel hd b.
Hypothesis Onb : off_sentinel hd nb.
Hypothesis O2 : Forall (off_sentinel hd) l2.
Hypothesis Ab2 : Forall (apart b) l2.
Hypothesis An2 : Forall (apart nb) l2.
Hypothesis S2 : separated l2.
Hypothesis P2 : P = hd \/ exists a, P = a + payload_off /\ off_sentinel hd a /\ Forall (apart a) l2.

Lemma linked_after_replace :
  linked m hd (b + payload_off) N l2 -> linked m' hd (nb + payload_off) N l2.
Proof.
  intros H. rewrite Forall_forall in O2, Ab2, An2.
  unfold apart, off_sentinel, header_size, payload_off in *.
  destruct l2 as [|c l2'].
  - cbn [linked succ_node] in *. destruct H as [H1 H2].
    split; [exact H1|]. rewrite <- H1. exact HNp.
  - cbn [linked succ_node] in *. destruct H as (H1 & H2 & H3 & H4).
    unfold payload_off in *.
    destruct S2 as [Sc S2']. rewrite Forall_forall in Sc. unfold apart, header_size in Sc.
    pose proof (O2 c (or_introl eq_refl)) as Oc.
    pose proof (Ab2 c (or_introl eq_refl)) as Abc.
    pose proof (An2 c (or_introl eq_refl)) as Anc.
    split; [exact H1|]. split; [exact H2|]. split; [exact HNp|].
    assert (E : get_next m' N = get_next m N).
    { apply get_next_ext. intros x Hx. apply HF; try lia.
      destruct P2 as [->|(a & -> & Oa & Aa)]; [lia|].
      rewrite Forall_forall in Aa. pose proof (Aa c (or_introl eq_refl)).
      unfold apart, header_size in *. lia. }
    rewrite E. apply (linked_frame m m'); [| |exact H4].
    + intros c' Hc' x Hx.
      pose proof (O2 c' (or_intror Hc')). pose proof (Ab2 c' (or_intror Hc')).
      pose proof (An2 c' (or_intror Hc')). pose proof (Sc c' Hc').
      apply HF; try lia.
      destruct P2 as [->|(a & -> & Oa & Aa)]; [lia|].
      rewrite Forall_forall in Aa. pose proof (Aa c' (or_intror Hc')).
      unfold apart, header_size in *. lia.
    + intros x Hx. apply HF; try lia.
      destruct P2 as [->|(a & -> & Oa & Aa)]; [lia|].
      unfold off_sentinel, header_size in Oa. lia.
Qed.

Lemma linked_replace : forall l1 prev node,
  linked m hd prev node (l1 ++ b :: l2) ->
  P = pred_node prev l1 ->
  Forall (off_sentinel hd) l1 -> Forall (apart nb) l1 ->
  separated (l1 ++ b :: l2) ->
  linked m' hd prev (match l1 with [] => nb + payload_off | _ => node end)
    (l1 ++ nb :: l2).
Proof.
  induction l1 as [|a l1 IH]; intros prev node H EP O1 A1 S1.
  - cbn [app linked pred_node fold_left] in *.
    destruct H as (H1 & H2 & H3 & H4). subst node.
    split; [reflexivity|].
    split; [unfold off_sentinel, header_size, payload_off in *; lia|].
    split; [rewrite HP; exact EP|].
    rewrite HN. apply linked_after_replace.
    assert (E : get_next m (b + payload_off) = N).
    { rewrite EN. destruct l2; cbn [linked succ_node] in *; apply H4. }
    rewrite <- E. exact H4.
  - cbn [app linked] in H |- *. destruct H as (H1 & H2 & H3 & H4). subst node.
    cbn [pred_node fold_left] in EP. fold (pred_node (a + payload_off) l1) in EP.
    cbn [app separated] in S1. destruct S1 as [Sa S1].
    pose proof (Forall_inv O1) as Oa. pose proof (Forall_inv_tail O1) as O1'. pose proof (Forall_inv A1) as Aa. pose proof (Forall_inv_tail A1) as A1'.
    pose proof (Forall_app (apart a) l1 (b :: l2)) as [Fa _].
    destruct (Fa Sa) as [Sa1 Sa2]. clear Fa.
    pose proof (Forall_inv Sa2) as Sab. pose proof (Forall_inv_tail Sa2) as Sa2'.
    rewrite Forall_forall in Sa1, Sa2'.
    assert (Cprev : forall x, a + 8 <= x < a + 16 -> m' x = m x).
    { intros x Hx. unfold apart, off_sentinel, header_size, payload_off in *.
      apply HF; try lia.
      - rewrite EN. destruct l2 as [|c l2']; cbn [succ_node]; unfold payload_off.
        + lia.
        + pose proof (Sa2' c (or_introl eq_refl)). lia.
      - rewrite EP.
        destruct (pred_node_cases l1 (a + 8)) as [[_ ->]|(z & Hz & ->)];
          unfold payload_off.
        + lia.
        + pose proof (Sa1 z Hz). lia. }
    split; [reflexivity|]. split; [exact H2|].
    split; [rewrite (get_prev_ext m' m);
             [exact H3 | unfold payload_off; intros x Hx; apply Cprev; lia]|].
    specialize (IH (a + payload_off) (get_next m (a + payload_off)) H4 EP O1' A1' S1).
    destruct l1 as [|z l1'].
    + cbn [pred_node fold_left] in EP.
      assert (E : get_next m' (a + payload_off) = get_next m' P) by (rewrite EP; reflexivity).
      rewrite E, HPn. exact IH.
    + assert (E : get_next m' (a + payload_off) = get_next m (a + payload_off)).
      { apply get_next_ext. intros x Hx.
        unfold apart, off_sentinel, header_size, payload_off in *.
        apply HF; try lia.
        - rewrite EN. destruct l2 as [|c l2']; cbn [succ_node]; unfold payload_off.
          + lia.
          + pose proof (Sa2' c (or_introl eq_refl)). lia.
        - rewrite EP.
          destruct (pred_node_cases (z :: l1') (a + 8)) as [[Hnil _]|(y & Hy & ->)];
            [discriminate Hnil|]. unfold payload_off.
          pose proof (Sa1 y Hy). lia. }
      rewrite E. exact IH.
Qed.

End ReplaceInList.

Lemma find_after_misses {A} (f : A -> bool) : forall l1 x l2,
  Forall (fun y => f y = false) l1 -> f x = true ->
  find f (l1 ++ x :: l2) = Some x.
Proof.
  induction l1 as [|a l1 IH]; intros x l2 H Hx; cbn [app find].
  - rewrite Hx. reflexivity.
  - pose proof (Forall_inv H) as Ha. pose proof (Forall_inv_tail H) as H'. rewrite Ha. apply IH; assumption.
Qed.

Lemma sum_sizes_app st l1 l2 :
  sum_sizes st (l1 ++ l2) = sum_sizes st l1 + sum_sizes st l2.
Proof.
  induction l1 as [|a l1 IH]; cbn [app sum_sizes fold_right]; [reflexivity|].
  fold (sum_sizes st (l1 ++ l2)). fold (sum_sizes st l1). rewrite IH. lia.
Qed.

Lemma succ_node_cases hd l2 :
  succ_node hd l2 = hd \/ exists c, In c l2 /\ succ_node hd l2 = c + payload_off.
Proof.
  destruct l2 as [|c l2]; [left; reflexivity|].
  right. exists c. split; [left; reflexivity | reflexivity].
Qed.

(** ** Allocation from a well-linked list *)

Lemma pool_malloc_in_list hd fuel st size l1 ret l2 :
  let m := st_mem st in
  let need := round_up size in
  let nb := ret + payload_off + ptr_size * need in
  well_linked hd m (l1 ++ ret :: l2) ->
  (length (l1 ++ ret :: l2) <= fuel)%nat ->
  0 < size <= INT_MAX - 27 ->
  need + header_size < pool_free_space st <= INT_MAX ->
  Forall (fun b => block_size st b < size + header_size) l1 ->
  size + header_size <= block_size st ret ->
  ret <> NULL -> 0 <= hd -> hd + 16 <= 2 ^ 64 ->
  Forall (off_sentinel hd) (l1 ++ ret :: l2) ->
  separated (l1 ++ ret :: l2) ->
  off_sentinel hd nb -> Forall (apart nb) (l1 ++ l2) ->
  exists st',
    pool_malloc hd fuel st size = Some (ret + payload_off, st') /\
    well_linked hd (st_mem st') (l1 ++ nb :: l2) /\
    block_size st' ret = need /\
    block_size st' nb = block_size st ret - word_size - need /\
    (forall b, In b (l1 ++ l2) -> block_size st' b = block_size st b) /\
    pool_free_space st' = pool_free_space st - (need + word_size) /\
    pool_size st' = pool_size st /\
    (pool_free_space st = sum_sizes st (l1 ++ ret :: l2) ->
     pool_free_space st' = sum_sizes st' (l1 ++ nb :: l2)).
Proof.
  intros m need nb WL Hfuel Hs Hf NF FIT Hr Hh H64 OS SEP Onb Anb.
  destruct (linked_middle m hd ret l2 l1 hd _ WL) as (Hne & EP & ENx & _).
  assert (G : get_loc_to_place hd fuel m size = Some ret).
  { unfold get_loc_to_place.
    rewrite (place_loop_first_fit hd m size (l1 ++ ret :: l2) _ fuel
               (linked_list_nodes _ _ _ _ _ WL) Hfuel).
    rewrite int_wrap_small by (unfold header_size, INT_MAX in *; lia).
    rewrite find_after_misses; [reflexivity| |].
    - eapply Forall_impl; [|exact NF]. intros c Hc. apply Z.leb_gt. exact Hc.
    - apply Z.leb_le. exact FIT. }
  apply Forall_app in OS. destruct OS as [O1 O2'].
  pose proof (Forall_inv O2') as Oret. pose proof (Forall_inv_tail O2') as O2.
  apply Forall_app in Anb. destruct Anb as [An1 An2].
  pose proof (separated_app_r _ _ SEP) as SEPr. cbn [separated] in SEPr.
  destruct SEPr as [Ar2 S2].
  assert (A1r : forall z, In z l1 -> apart z ret /\ Forall (apart z) l2).
  { intros z Hz. pose proof (separated_app_l _ _ z SEP Hz) as F.
    split; [exact (Forall_inv F) | exact (Forall_inv_tail F)]. }
  set (P := get_prev m (ret + payload_off)) in *.
  set (N := get_next m (ret + payload_off)) in *.
  assert (FP : P = hd \/ exists z, In z l1 /\ P = z + 8).
  { rewrite EP. destruct (pred_node_cases l1 hd) as [[_ E]|(z & Hz & E)].
    - left. exact E.
    - right. exists z. split; [exact Hz | exact E]. }
  assert (FN : N = hd \/ exists c, In c l2 /\ N = c + 8).
  { rewrite ENx. apply succ_node_cases. }
  rewrite Forall_forall in O1, O2, An1, An2, Ar2.
  assert (SEPS :
    (nb + 24 <= N \/ N + 8 <= nb) /\ (nb + 24 <= P + 8 \/ P + 16 <= nb) /\
    (ret + 4 <= N \/ N + 8 <= ret) /\ (ret + 4 <= P + 8 \/ P + 16 <= ret) /\
    (N <= P \/ P + 16 <= N)).
  { unfold apart, off_sentinel, header_size in *.
    destruct FN as [->|(c & Hc & ->)]; destruct FP as [->|(z & Hz & ->)].
    - lia.
    - pose proof (O1 z Hz). pose proof (An1 z Hz). pose proof (A1r z Hz) as [? _]. lia.
    - pose proof (O2 c Hc). pose proof (An2 c Hc). pose proof (Ar2 c Hc). lia.
    - pose proof (O1 z Hz). pose proof (An1 z Hz). pose proof (A1r z Hz) as [? Fz].
      rewrite Forall_forall in Fz. pose proof (Fz c Hc).
      pose proof (O2 c Hc). pose proof (An2 c Hc). pose proof (Ar2 c Hc). lia. }
  destruct SEPS as (Q1 & Q2 & Q3 & Q4 & Q5).
  assert (Oret' := Oret). assert (Onb' := Onb).
  unfold off_sentinel, header_size in Oret', Onb'.
  destruct (pool_malloc_split hd fuel st size ret)
    as (st' & M1 & M2 & M3 & _ & M5 & M6 & M7 & M8 & M9 & M10 & MF);
    fold m need nb P N; unfold header_size; try assumption; try lia.
  fold m need nb P N in M2, M3, M5, M6, M7, M8, M9, MF.
  exists st'. split; [exact M1|].
  (* the frame, for cells of the other blocks *)
  assert (OUT : forall c, In c (l1 ++ l2) -> forall x, c <= x < c + 24 ->
                  x < c + 8 \/ c + 16 <= x \/ N <> c + 8 ->
                  x < c + 16 \/ P <> c + 8 ->
                  st_mem st' x = m x).
  { intros c Hc x Hx HxN HxP. apply in_app_or in Hc.
    assert (Fc : off_sentinel hd c /\ apart nb c /\ apart c ret /\
                 (forall z, In z l1 -> z = c \/ apart z c) /\
                 (forall c', In c' l2 -> c' = c \/ apart c' c)).
    { destruct Hc as [Hc|Hc].
      - destruct (A1r c Hc) as [Acr Fc2]. rewrite Forall_forall in Fc2.
        split; [apply O1; exact Hc|]. split; [apply An1; exact Hc|].
        split; [exact Acr|]. split.
        + intros z Hz. destruct (Z.eq_dec z c) as [E|E]; [left; exact E|right].
          clear - SEP Hz Hc E. revert SEP Hz Hc.
          induction l1 as [|a l1' IH]; intros SEP Hz Hc; [destruct Hz|].
          cbn [app separated] in SEP. destruct SEP as [Fa SEP'].
          apply Forall_app in Fa. destruct Fa as [Fa _].
          rewrite Forall_forall in Fa.
          destruct Hz as [<-|Hz]; destruct Hc as [<-|Hc].
          * contradiction.
          * apply Fa. exact Hc.
          * pose proof (Fa z Hz) as F. unfold apart in *. lia.
          * apply IH; assumption.
        + intros c' Hc'. right. pose proof (Fc2 c' Hc') as F. unfold apart in *. lia.
      - split; [apply O2; exact Hc|]. split; [apply An2; exact Hc|].
        split; [pose proof (Ar2 c Hc) as F; unfold apart in *; lia|]. split.
        + intros z Hz. right. destruct (A1r z Hz) as [_ Fz].
          rewrite Forall_forall in Fz. apply Fz. exact Hc.
        + intros c' Hc'. destruct (Z.eq_dec c' c) as [E|E]; [left; exact E|right].
          clear - S2 Hc' Hc E. revert S2 Hc' Hc.
          induction l2 as [|a l2' IH]; intros S2 Hc' Hc; [destruct Hc'|].
          cbn [separated] in S2. destruct S2 as [Fa S2'].
          rewrite Forall_forall in Fa.
          destruct Hc' as [<-|Hc']; destruct Hc as [<-|Hc].
          * contradiction.
          * apply Fa. exact Hc.
          * pose proof (Fa c' Hc') as F. unfold apart in *. lia.
          * apply IH; assumption. }
    destruct Fc as (F1 & F2 & F3 & F4 & F5).
    unfold apart, off_sentinel, header_size in F1, F2, F3, F4, F5.
    apply MF.
    - clear - F3 Hx. lia.
    - unfold header_size. clear - F2 Hx. lia.
    - destruct FN as [E|(c' & Hc' & E)].
      + clear - E F1 Hx. lia.
      + destruct (F5 c' Hc') as [Ec|F];
          [subst c'; clear - E Hx HxN; lia | clear - E Hx F; lia].
    - destruct FP as [E|(z & Hz & E)].
      + clear - E F1 Hx. lia.
      + destruct (F4 z Hz) as [Ez|F];
          [subst z; clear - E Hx HxP; lia | clear - E Hx F; lia]. }
  split.
  { unfold well_linked.
    assert (L := linked_replace m (st_mem st') hd ret nb P N l2 M5 M6 M7 M8).
    assert (HF' : forall x,
              x < ret \/ ret + 4 <= x -> x < nb \/ nb + header_size <= x ->
              x < N \/ N + 8 <= x -> x < P + 8 \/ P + 16 <= x ->
              st_mem st' x = m x) by (unfold header_size; exact MF).
    assert (P2 : P = hd \/ exists a, P = a + payload_off /\ off_sentinel hd a /\
                                Forall (apart a) l2).
    { destruct FP as [E|(z & Hz & E)]; [left; exact E|right].
      exists z. split; [exact E|]. split; [apply O1; exact Hz|].
      apply (A1r z Hz). }
    rewrite <- Forall_forall in O1, O2, An1, An2, Ar2.
    specialize (L HF' ENx Oret Onb O2 Ar2 An2 S2 P2 l1 hd (get_next m hd) WL EP O1 An1 SEP).
    destruct l1 as [|a l1'].
    - cbn [pred_node fold_left] in EP.
      replace (get_next (st_mem st') hd) with (nb + payload_off); [exact L|].
      rewrite <- M7, EP. reflexivity.
    - replace (get_next (st_mem st') hd) with (get_next m hd); [exact L|].
      symmetry. apply get_next_ext. intros x Hx.
      rewrite Forall_forall in O1, O2.
      unfold apart, off_sentinel, header_size in *.
      apply MF; try lia.
      + destruct FN as [E|(c' & Hc' & E)]; [lia|]. pose proof (O2 c' Hc'). lia.
      + destruct FP as [E|(z & Hz & E)].
        * exfalso.
          destruct (pred_node_cases (a :: l1') hd) as [[Hnil _]|(y & Hy & Ey)];
            [discriminate Hnil|].
          rewrite <- EP, E in Ey. unfold payload_off in Ey.
          pose proof (O1 y Hy). lia.
        * pose proof (O1 z Hz). lia. }
  split; [exact M2|]. split; [exact M3|].
  assert (SZ : forall c, In c (l1 ++ l2) -> block_size st' c = block_size st c).
  { intros c Hc. unfold block_size. apply load_int_ext. intros x Hx.
    apply (OUT c Hc); lia. }
  split; [exact SZ|]. split; [exact M9|]. split; [exact M10|].
  intros Hsum. rewrite M9, Hsum, !sum_sizes_app.
  cbn [sum_sizes fold_right]. fold (sum_sizes st l2). fold (sum_sizes st' l2).
  rewrite M3.
  rewrite (sum_sizes_frame st st' l1), (sum_sizes_frame st st' l2).
  - unfold word_size. lia.
  - intros c Hc x Hx. apply (OUT c (in_or_app _ _ _ (or_intror Hc))); lia.
  - intros c Hc x Hx. apply (OUT c (in_or_app _ _ _ (or_introl Hc))); lia.
Qed.

(** X12: [pool_malloc] on a well-linked free list whose blocks, and the
    remainder header about to be written, overlap neither each other nor the
    sentinel: when [ret] is the first block with room for [size] plus the
    header footprint, the call returns [ret]'s payload, the list is the old
    one with the remainder in [ret]'s place, the other blocks keep their
    sizes, and if the counter was the sum of the free blocks' sizes before
    the call it is so after it. *)
Theorem pool_malloc_keeps_list hd fuel st size l1 ret l2 :
  let m := st_mem st in
  let need := round_up size in
  let nb := ret + payload_off + ptr_size * need in
  well_linked hd m (l1 ++ ret :: l2) ->
  (length (l1 ++ ret :: l2) <= fuel)%nat ->
  0 < size <= INT_MAX - 27 ->
  need + header_size < pool_free_space st <= INT_MAX ->
  Forall (fun b => block_size st b < size + header_size) l1 ->
  size + header_size <= block_size st ret ->
  ret <> NULL -> 0 <= hd -> hd + 16 <= 2 ^ 64 ->
  Forall (off_sentinel hd) (l1 ++ ret :: l2) ->
  separated (l1 ++ ret :: l2) ->
  off_sentinel hd nb -> Forall (apart nb) (l1 ++ l2) ->
  exists st',
    pool_malloc hd fuel st size = Some (ret + payload_off, st') /\
    well_linked hd (st_mem st') (l1 ++ nb :: l2) /\
    block_size st' ret = need /\
    block_size st' nb = block_size st ret - word_size - need /\
    (forall b, In b (l1 ++ l2) -> block_size st' b = block_size st b) /\
    pool_free_space st' = pool_free_space st - (need + word_size) /\
    pool_size st' = pool_size st /\
    (pool_free_space st = sum_sizes st (l1 ++ ret :: l2) ->
     pool_free_space st' = sum_sizes st' (l1 ++ nb :: l2)).
Proof. apply pool_malloc_in_list. Qed.

Lemma pool_malloc_keeps_list_witness :
  exists st',
    pool_malloc HD 4 two_free 8 = Some (BUF + 120 + payload_off, st') /\
    well_linked HD (st_mem st') [BUF; BUF + 192] /\
    pool_free_space st' = sum_sizes st' [BUF; BUF + 192].
Proof.
  destruct (pool_malloc_keeps_list HD 4 two_free 8 [BUF] (BUF + 120) [])
    as (st' & H1 & H2 & _ & _ & _ & _ & _ & H8).
  - unfold well_linked. cbn [app linked]. conj_eval.
  - simpl. lia.
  - split; by_eval.
  - split; by_eval.
  - constructor; [by_eval | constructor].
  - by_eval.
  - by_eval.
  - by_eval.
  - by_eval.
  - cbn [app]. constructor; [|constructor; [|constructor]].
    + split; [by_eval|]. split; [by_eval|]. left. by_eval.
    + split; [by_eval|]. split; [by_eval|]. left. by_eval.
  - cbn [app separated]. split; [|split; [constructor | exact I]].
    constructor; [|constructor]. left. by_eval.
  - split; [by_eval|]. split; [by_eval|]. left. by_eval.
  - cbn [app]. constructor; [|constructor]. right. by_eval.
  - exists st'. split; [exact H1|]. split; [exact H2|]. apply H8. by_eval.
Defined.

